(** * generative-art-machine: the image generation core

    A shallow embedding of [hash], the [ColorFunc] expression trees and their
    [Eval] methods, [Generate], [normalize], [calculateColorVariance] and
    [CreateImage], followed by the properties the specification states about
    them.

    Conventions of the embedding.
    - Go's [float64] is idealised as the real numbers [R]: rounding, overflow
      and NaN are outside the model.  [math.Sin], [math.Cos], [math.Sqrt],
      [math.Pi] are [sin], [cos], [sqrt], [PI]; [math.Pow(v, 2)] is [v ^ 2].
    - Go's [int] values (sizes, rows, depths) are integers [Z]: for an image
      that can be allocated they stay far from the ends of the 64-bit range.
      [uint32] is [Z] reduced modulo [2^32]; a [string] is its sequence of
      bytes.
    - The global [math/rand] source is an explicit state threaded through
      [Generate] and [CreateImage]. *)

From Stdlib Require Import ZArith List Reals Lra Lia.
From Stdlib Require Import Strings.Byte.
From Stdlib Require Strings.String.
From stdpp Require Import base list gmap.

(** ** [hash]: the seed string folded to a [uint32] *)

Module Hash.

Local Open Scope Z_scope.

(** A Go string is a read-only slice of bytes. *)
Definition gostring : Type := list byte.

Definition byte_val (b : byte) : Z := Z.of_N (Byte.to_N b).

(** Conversions to [uint32]; arithmetic on [uint32] wraps modulo [2^32]. *)
Definition uint32 (z : Z) : Z := z mod 2 ^ 32.

(** Constants of the UTF-8 decoder that Go's [range] over a string uses. *)
Definition runeError : Z := 0xFFFD.
Definition runeSelf : Z := 0x80.
Definition maxRune : Z := 0x10FFFF.
Definition surrogateMin : Z := 0xD800.
Definition surrogateMax : Z := 0xDFFF.

Definition is_cont (b : Z) : bool := (0x80 <=? b) && (b <=? 0xBF).

(** [decoderune s] decodes the code point that starts the non-empty byte
    sequence [s] and returns it with the number of bytes it occupies.  An
    invalid or truncated encoding (stray continuation byte, overlong form,
    surrogate, value above [maxRune]) yields [runeError] and width 1. *)
Definition decoderune (s : list Z) : Z * nat :=
  match s with
  | [] => (runeError, 1%nat)
  | b0 :: t =>
    if b0 <? runeSelf then (b0, 1%nat)
    else if (0xC0 <=? b0) && (b0 <? 0xE0) then
      match t with
      | b1 :: _ =>
        let r := Z.lor (Z.shiftl (Z.land b0 0x1F) 6) (Z.land b1 0x3F) in
        if is_cont b1 && (0x7F <? r) then (r, 2%nat) else (runeError, 1%nat)
      | _ => (runeError, 1%nat)
      end
    else if (0xE0 <=? b0) && (b0 <? 0xF0) then
      match t with
      | b1 :: b2 :: _ =>
        let r := Z.lor (Z.lor (Z.shiftl (Z.land b0 0x0F) 12)
                              (Z.shiftl (Z.land b1 0x3F) 6))
                       (Z.land b2 0x3F) in
        if is_cont b1 && is_cont b2 && (0x7FF <? r)
           && negb ((surrogateMin <=? r) && (r <=? surrogateMax))
        then (r, 3%nat) else (runeError, 1%nat)
      | _ => (runeError, 1%nat)
      end
    else if (0xF0 <=? b0) && (b0 <? 0xF8) then
      match t with
      | b1 :: b2 :: b3 :: _ =>
        let r := Z.lor (Z.lor (Z.lor (Z.shiftl (Z.land b0 0x07) 18)
                                     (Z.shiftl (Z.land b1 0x3F) 12))
                              (Z.shiftl (Z.land b2 0x3F) 6))
                       (Z.land b3 0x3F) in
        if is_cont b1 && is_cont b2 && is_cont b3
           && (0xFFFF <? r) && (r <=? maxRune)
        then (r, 4%nat) else (runeError, 1%nat)
      | _ => (runeError, 1%nat)
      end
    else (runeError, 1%nat)
  end.

(** [for _, c := range s { acc = body acc c }]: the loop visits the code
    points of [s], not its bytes.  Every iteration consumes at least one
    byte, so [length s] iterations of fuel always reach the end. *)
Fixpoint range_loop {A : Type} (body : A -> Z -> A) (fuel : nat)
    (s : list Z) (acc : A) : A :=
  match fuel, s with
  | S fuel', _ :: _ =>
    let '(c, w) := decoderune s in
    range_loop body fuel' (skipn w s) (body acc c)
  | _, _ => acc
  end.

Definition range_string {A : Type} (body : A -> Z -> A) (s : gostring)
    (acc : A) : A :=
  range_loop body (length s) (map byte_val s) acc.

(** [hash]: [h := uint32(2166136261)], then for every [c] of the range
    loop [h = (h * 16777619) ^ uint32(c)]. *)
Definition hash_step (h c : Z) : Z := Z.lxor (uint32 (h * 16777619)) (uint32 c).

Definition hash (seed : gostring) : Z :=
  range_string hash_step seed (uint32 2166136261).

(** The code points the range loop yields, in order. *)
Definition runes (s : gostring) : list Z :=
  rev (range_string (fun acc c => c :: acc) s []).

(** The fold the specification describes, over an arbitrary sequence of
    values: [h = 2166136261], then [h := (h * 16777619) xor c] modulo
    [2^32] for each [c]. *)
Definition fnv_fold (cs : list Z) : Z :=
  fold_left (fun h c => Z.lxor ((h * 16777619) mod 2 ^ 32) c) cs 2166136261.

Definition bytes_of (s : gostring) : list Z := map byte_val s.

End Hash.

(** ** Expression trees: the [ColorFunc] interface and its eight node types *)

(** One constructor per struct implementing [ColorFunc]; the fields keep
    the source's names and order. *)
Inductive ColorFunc : Type :=
  | Constant (r g b : R)
  | VariableX
  | VariableY
  | Sin (phase freq : R) (sub : ColorFunc)
  | Product (left right : ColorFunc)
  | Mix (w : R) (left right : ColorFunc)
  | Well (sub : ColorFunc)
  | FractalNoise (scale : R) (sub : ColorFunc).

(** The three results [(r, g, b)] of an [Eval] call. *)
Definition rgb : Type := (R * R * R)%type.

Definition map3 (f : R -> R) (c : rgb) : rgb :=
  let '(r, g, b) := c in (f r, f g, f b).

Section Eval.
Local Open Scope R_scope.

(** The closures [well] and [smooth] of [Well.Eval] and [FractalNoise.Eval]. *)
Definition well (v : R) : R := 1 - 2 / (1 + v ^ 2).
Definition smooth (v : R) : R := 0.5 * (sin (5 * v) + cos (5 * v)).

(** The [Eval] methods, dispatched on the node type. *)
Fixpoint Eval (f : ColorFunc) (x y : R) : rgb :=
  match f with
  | Constant r g b => (r, g, b)
  | VariableX => (x, x, x)
  | VariableY => (y, y, y)
  | Sin phase freq sub =>
    let '(r, g, b) := Eval sub x y in
    (sin (phase + freq * r), sin (phase + freq * g), sin (phase + freq * b))
  | Product l r =>
    let '(r1, g1, b1) := Eval l x y in
    let '(r2, g2, b2) := Eval r x y in
    (r1 * r2, g1 * g2, b1 * b2)
  | Mix w l r =>
    let '(r1, g1, b1) := Eval l x y in
    let '(r2, g2, b2) := Eval r x y in
    (w * r1 + (1 - w) * r2, w * g1 + (1 - w) * g2, w * b1 + (1 - w) * b2)
  | Well sub =>
    let '(r, g, b) := Eval sub x y in
    (well r, well g, well b)
  | FractalNoise scale sub =>
    let '(r, g, b) := Eval sub (x * scale) (y * scale) in
    (smooth r, smooth g, smooth b)
  end.

End Eval.

(** Lengths of the root-to-leaf paths of a tree, one entry per leaf, left
    to right. *)
Fixpoint leaf_depths (f : ColorFunc) : list Z :=
  match f with
  | Constant _ _ _ | VariableX | VariableY => [0%Z]
  | Sin _ _ sub | Well sub | FractalNoise _ sub =>
    map Z.succ (leaf_depths sub)
  | Product l r | Mix _ l r =>
    map Z.succ (leaf_depths l ++ leaf_depths r)
  end.

Definition is_leaf (f : ColorFunc) : bool :=
  match f with
  | Constant _ _ _ | VariableX | VariableY => true
  | _ => false
  end.

(** ** The random source *)

(** What the program uses of [math/rand]'s global source: [rand.Seed],
    [rand.Float64] and [rand.Intn], each a transition on the source's
    state. *)
Record RandSource : Type := {
  rng : Type;
  rand_Seed : Z -> rng;
  rand_Float64 : rng -> R * rng;
  rand_Intn : Z -> rng -> Z * rng
}.

(** The contract of [math/rand]: [Float64] lies in [[0, 1)] and [Intn n]
    in [[0, n)]. *)
Record RandSourceOk (rs : RandSource) : Prop := {
  Float64_range : forall g, (0 <= fst (rand_Float64 rs g) < 1)%R;
  Intn_range : forall n g, (0 < n)%Z -> (0 <= fst (rand_Intn rs n g) < n)%Z
}.

(** Computations that draw from the source and may fail to return. *)
Definition Rand (rs : RandSource) (A : Type) : Type :=
  rng rs -> option (A * rng rs).

Section RandMonad.
Context {rs : RandSource}.

Definition ret {A} (a : A) : Rand rs A := fun g => Some (a, g).

Definition bind {A B} (k : A -> Rand rs B) (m : Rand rs A) : Rand rs B :=
  fun g => match m g with
           | Some (a, g') => k a g'
           | None => None
           end.

Definition diverge {A} : Rand rs A := fun _ => None.

Definition Float64 : Rand rs R := fun g => Some (rand_Float64 rs g).
Definition Intn (n : Z) : Rand rs Z := fun g => Some (rand_Intn rs n g).

End RandMonad.

(** [x ← m; k] runs [m], then [k] on its result and the new state. *)
#[global] Instance Rand_bind {rs : RandSource} : MBind (Rand rs) := @bind rs.

(** ** [Generate] *)

Section Generate.
Context {rs : RandSource}.

Definition Rltb (a b : R) : bool := if Rlt_dec a b then true else false.

(** [maxDepth == 0 || (minDepth <= 0 && rand.Float64() < 0.2)], with Go's
    short-circuit evaluation: the draw happens only when [maxDepth] is not
    zero and [minDepth <= 0]. *)
Definition leaf_condition (minDepth maxDepth : Z) : Rand rs bool :=
  if (maxDepth =? 0)%Z then ret true
  else if (minDepth <=? 0)%Z then (f ← Float64; ret (Rltb f 0.2))
  else ret false.

Definition gen_leaf : Rand rs ColorFunc :=
  k ← Intn 3;
  match k with
  | 0%Z => ret VariableX
  | 1%Z => ret VariableY
  | _ =>
    r ← Float64; g ← Float64; b ← Float64;
    ret (Constant (r * 2 - 1) (g * 2 - 1) (b * 2 - 1))
  end.

(** [Generate minDepth maxDepth].  The recursion of the source has no
    measure that decreases for every input, so the model counts calls:
    [fuel] bounds the depth of the call stack, and running out of it
    ([None]) stands for a call that has not returned within that depth.
    Fields of a composite literal are evaluated in source order. *)
Fixpoint Generate (fuel : nat) (minDepth maxDepth : Z) : Rand rs ColorFunc :=
  match fuel with
  | O => diverge
  | S fuel' =>
    stop ← leaf_condition minDepth maxDepth;
    if stop : bool then gen_leaf
    else
      k ← Intn 4;
      match k with
      | 0%Z =>
        p ← Float64; f ← Float64;
        sub ← Generate fuel' (minDepth - 1) (maxDepth - 1);
        ret (Sin (p * 2 * PI) (0.5 + f * 3.0) sub)
      | 1%Z =>
        w ← Float64;
        l ← Generate fuel' (minDepth - 1) (maxDepth - 1);
        r ← Generate fuel' (minDepth - 1) (maxDepth - 1);
        ret (Mix w l r)
      | 2%Z =>
        l ← Generate fuel' (minDepth - 1) (maxDepth - 1);
        r ← Generate fuel' (minDepth - 1) (maxDepth - 1);
        ret (Product l r)
      | _ =>
        s ← Float64;
        sub ← Generate fuel' (minDepth - 1) (maxDepth - 1);
        ret (FractalNoise (0.5 + s * 2.0) sub)
      end
  end.

End Generate.

(** ** Pixels and images *)

(** [color.RGBA]: four [uint8] channels.  (The channel [R] is spelled [cR]
    since [R] names the reals.) *)
Record RGBA : Type := mkRGBA { cR : Z; cG : Z; cB : Z; cA : Z }.

#[global] Instance RGBA_eq_dec : EqDecision RGBA.
Proof. solve_decision. Defined.

(** [*image.RGBA] as [CreateImage] uses it: the bounds
    [image.Rect(0, 0, size, size)] and the pixels stored so far.  A pixel
    never stored reads as the zero colour, as in a fresh [NewRGBA] buffer. *)
Record Image : Type := mkImage {
  Rect_Min : Z;
  Rect_Max : Z;
  Pix : gmap (Z * Z) RGBA
}.

Definition zeroRGBA : RGBA := mkRGBA 0 0 0 0.

(** [image.Rect] swaps its corners when needed so that [Min <= Max]. *)
Definition NewRGBA (size : Z) : Image :=
  mkImage (Z.min 0 size) (Z.max 0 size) ∅.

Definition in_bounds (img : Image) (x y : Z) : bool :=
  (Rect_Min img <=? x)%Z && (x <? Rect_Max img)%Z &&
  (Rect_Min img <=? y)%Z && (y <? Rect_Max img)%Z.

(** [img.Set(x, y, c)] stores [c] when [(x, y)] is inside the bounds and
    does nothing otherwise. *)
Definition Set_ (img : Image) (x y : Z) (c : RGBA) : Image :=
  if in_bounds img x y
  then mkImage (Rect_Min img) (Rect_Max img) (<[(x, y) := c]> (Pix img))
  else img.

(** [img.RGBAAt(x, y)] *)
Definition RGBAAt (img : Image) (x y : Z) : RGBA :=
  if in_bounds img x y then default zeroRGBA (Pix img !! (x, y)) else zeroRGBA.

Section Pixel.
Local Open Scope R_scope.

(** [normalize] *)
Definition normalize (value : R) : R :=
  if Rlt_dec value (-1) then -1
  else if Rgt_dec value 1 then 1
  else value.

(** Conversion of a [float64] to an integer type discards the fraction
    (truncation towards zero). *)
Definition Ztrunc (v : R) : Z := if Rle_dec 0 v then Zfloor v else Zceil v.

(** [uint8(v)].  For [v] outside [[0, 256)] Go leaves the result to the
    implementation; the model wraps, and no caller below leaves the range. *)
Definition uint8 (v : R) : Z := (Ztrunc v mod 256)%Z.

(** The body of the two pixel loops of a worker: sample point, evaluation,
    clamping, conversion to a colour. *)
Definition pixel_color (art : ColorFunc) (size px py : Z) : RGBA :=
  let x := 2 * IZR px / IZR size - 1 in
  let y := 2 * IZR py / IZR size - 1 in
  let '(r, g, b) := Eval art x y in
  let '(r, g, b) := (normalize r, normalize g, normalize b) in
  {| cR := uint8 (128 + r * 127);
     cG := uint8 (128 + g * 127);
     cB := uint8 (128 + b * 127);
     cA := 255 |}.

End Pixel.

(** ** Rasterization by row bands *)

Section Raster.
Local Open Scope Z_scope.

(** One [img.Set(px, py, color)] call. *)
Definition write : Type := (Z * Z * RGBA)%type.

Definition apply_write (img : Image) (w : write) : Image :=
  let '(px, py, c) := w in Set_ img px py c.

(** The rows [startRow <= py < endRow] of the goroutine [worker]. *)
Definition worker_rows (size numWorkers rowsPerWorker worker : Z) : list Z :=
  let startRow := worker * rowsPerWorker in
  let endRow := startRow + rowsPerWorker in
  let endRow := if worker =? numWorkers - 1 then size else endRow in
  seqZ startRow (endRow - startRow).

(** The [Set] calls of one goroutine, in program order. *)
Definition worker_writes (art : ColorFunc) (size numWorkers rowsPerWorker
    worker : Z) : list write :=
  py ← worker_rows size numWorkers rowsPerWorker worker;
  px ← seqZ 0 size;
  [(px, py, pixel_color art size px py)].

(** The [Set] calls of all goroutines of one pass, worker after worker. *)
Definition raster_writes (art : ColorFunc) (size numWorkers : Z) : list write :=
  let rowsPerWorker := Z.quot size numWorkers in
  worker ← seqZ 0 numWorkers;
  worker_writes art size numWorkers rowsPerWorker worker.

(** The buffer after [wg.Wait()], for the schedule that runs the goroutines
    one after the other.  [foldl_apply_write_perm] below covers every
    other order of the same writes. *)
Definition rasterize (art : ColorFunc) (size numWorkers : Z) : Image :=
  foldl apply_write (NewRGBA size) (raster_writes art size numWorkers).

End Raster.

(** ** [calculateColorVariance] *)

Section Variance.
Local Open Scope R_scope.

(** The six accumulators [rTotal, gTotal, bTotal, rSq, gSq, bSq]. *)
Record sums : Type := mkSums {
  rTotal : R; gTotal : R; bTotal : R; rSq : R; gSq : R; bSq : R
}.

Definition accumulate (img : Image) (py : Z) (acc : sums) (px : Z) : sums :=
  let c := RGBAAt img px py in
  let r := IZR (cR c) in
  let g := IZR (cG c) in
  let b := IZR (cB c) in
  {| rTotal := rTotal acc + r; gTotal := gTotal acc + g;
     bTotal := bTotal acc + b;
     rSq := rSq acc + r * r; gSq := gSq acc + g * g; bSq := bSq acc + b * b |}.

Definition calculateColorVariance (img : Image) (size : Z) : R :=
  let pixelCount := IZR (size * size) in
  let s := foldl (fun acc py => foldl (accumulate img py) acc (seqZ 0 size))
                 (mkSums 0 0 0 0 0 0) (seqZ 0 size) in
  let rMean := rTotal s / pixelCount in
  let gMean := gTotal s / pixelCount in
  let bMean := bTotal s / pixelCount in
  sqrt ((rSq s / pixelCount - rMean * rMean)
        + (gSq s / pixelCount - gMean * gMean)
        + (bSq s / pixelCount - bMean * bMean)).

End Variance.

(** ** [CreateImage] *)

(** Lines written to standard output. *)
Inductive Message : Type :=
  | ExpressionTree (seed : Hash.gostring) (art : ColorFunc)
  | LowVarianceRetry
  | LowVarianceWarning.

(** The variables [img] and [variance] of [CreateImage], with the output
    printed so far and the trees built so far. *)
Record LoopState : Type := mkLoopState {
  img : option Image;
  variance : R;
  printed : list Message;
  trees : list ColorFunc
}.

Section CreateImage.
Context {rs : RandSource}.

Definition Rgtb (a b : R) : bool := if Rgt_dec a b then true else false.
Definition Rleb (a b : R) : bool := if Rle_dec a b then true else false.

(** The loop [for attempts := 0; attempts < 3; attempts++], by the number
    of iterations left.  [Generate(10, 30)] needs at most 31 nested calls
    ([Generate_returns]). *)
Fixpoint attempts_loop (remaining : nat) (seed : Hash.gostring)
    (size numWorkers : Z) (st : LoopState) : Rand rs LoopState :=
  match remaining with
  | O => ret st
  | S remaining' =>
    art ← Generate 31 10 30;
    let im := rasterize art size numWorkers in
    let v := calculateColorVariance im size in
    let st' := {| img := Some im; variance := v;
                  printed := printed st ++ [ExpressionTree seed art];
                  trees := trees st ++ [art] |} in
    if Rgtb v 30.0 then ret st'
    else attempts_loop remaining' seed size numWorkers
           {| img := img st'; variance := variance st';
              printed := printed st' ++ [LowVarianceRetry];
              trees := trees st' |}
  end.

(** [CreateImage seed size], with [numWorkers] the value of
    [runtime.GOMAXPROCS(0)].  The result is the final loop state: the
    returned image, the last metric, the output and the trees tried. *)
Definition CreateImage (seed : Hash.gostring) (size numWorkers : Z)
    : option LoopState :=
  let g := rand_Seed rs (Hash.hash seed) in
  match attempts_loop 3 seed size numWorkers
          {| img := None; variance := 0; printed := []; trees := [] |} g with
  | Some (st, _) =>
    Some (if Rleb (variance st) 50.0
          then {| img := img st; variance := variance st;
                  printed := printed st ++ [LowVarianceWarning];
                  trees := trees st |}
          else st)
  | None => None
  end.

End CreateImage.

Arguments CreateImage rs seed size numWorkers : clear implicits.

(** ** Notions the specification uses to describe the code *)

Section SpecNotions.
Local Open Scope R_scope.

(** Rounding to the nearest integer, halves away from zero. *)
Definition round (v : R) : Z :=
  if Rle_dec 0 v then Zfloor (v + 0.5) else Zceil (v - 0.5).

(** Saturation of a channel to [[-1, 1]]. *)
Definition clamp (v : R) : R := Rmax (-1) (Rmin 1 v).

(** The pixel coordinates of a [size] by [size] image, row by row. *)
Definition grid (size : Z) : list (Z * Z) :=
  py ← seqZ 0 size; px ← seqZ 0 size; [(px, py)].

(** The stored pixels of an image, and the mean of a quantity over all
    [size * size] of them. *)
Definition pixels (im : Image) (size : Z) : list RGBA :=
  (fun p => RGBAAt im p.1 p.2) <$> grid size.

Definition sumR (l : list R) : R := foldr Rplus 0 l.

Definition mean (f : RGBA -> R) (im : Image) (size : Z) : R :=
  sumR (f <$> pixels im size) / IZR (size * size).

(** Mean of squares minus square of the mean, for one channel. *)
Definition channel_variance (ch : RGBA -> Z) (im : Image) (size : Z) : R :=
  mean (fun c => IZR (ch c) * IZR (ch c)) im size
  - mean (fun c => IZR (ch c)) im size * mean (fun c => IZR (ch c)) im size.

(** The diversity metric of the tree [art] at a given image size. *)
Definition metric (size numWorkers : Z) (art : ColorFunc) : R :=
  calculateColorVariance (rasterize art size numWorkers) size.

End SpecNotions.

(** ** A random source that replays a recorded sequence of draws *)

(** The state is the list of raw 53-bit draws still to come (0 once the
    list is used up).  [Float64] scales a draw to [[0, 1)] and [Intn n]
    reduces it modulo [n]; seeding rewinds to the recorded sequence. *)
Definition ReplaySource (draws : list Z) : RandSource := {|
  rng := list Z;
  rand_Seed := fun _ => draws;
  rand_Float64 := fun g => ((IZR (hd 0%Z g mod 2 ^ 53) / IZR (2 ^ 53))%R, tl g);
  rand_Intn := fun n g => ((hd 0 g mod n)%Z, tl g)
|}.

(** A recorded run: nine [Mix] nodes of weight 0 whose left children are
    chains of [Sin] nodes, above [Product(VariableX, Constant(-1/2, 0, 0))]
    with its leaves at depth 10. *)
Fixpoint sin_chain (n : nat) : ColorFunc :=
  match n with
  | O => VariableX
  | S n' => Sin (0 / IZR (2 ^ 53) * 2 * PI) (0.5 + 0 / IZR (2 ^ 53) * 3.0)
              (sin_chain n')
  end.

Definition sample_core : ColorFunc :=
  Product VariableX
    (Constant (IZR (2 ^ 51) / IZR (2 ^ 53) * 2 - 1)
              (IZR (2 ^ 52) / IZR (2 ^ 53) * 2 - 1)
              (IZR (2 ^ 52) / IZR (2 ^ 53) * 2 - 1)).

Fixpoint mix_chain (n : nat) : ColorFunc :=
  match n with
  | O => sample_core
  | S n' => Mix (0 / IZR (2 ^ 53)) (sin_chain n) (mix_chain n')
  end.

Definition sample_tree : ColorFunc := mix_chain 9.

Fixpoint mix_draws (n : nat) : list Z :=
  match n with
  | O => [2; 0; 0; 0; 2; 2 ^ 51; 2 ^ 52; 2 ^ 52]%Z
  | S n' => [1; 0]%Z ++ repeat 0%Z (3 * n + 2) ++ mix_draws n'
  end.

Definition sample_draws : list Z := mix_draws 9.

(** A source whose every [Float64] draw is 1/2 and whose [Intn] is 0: the
    test [rand.Float64() < 0.2] never succeeds. *)
Definition HalfSource : RandSource := {|
  rng := unit;
  rand_Seed := fun _ => tt;
  rand_Float64 := fun g => ((1 / 2)%R, g);
  rand_Intn := fun _ g => (0%Z, g)
|}.

(** The two bytes of the UTF-8 encoding of U+00E9. *)
Definition seed_e_acute : Hash.gostring := [Byte.xc3; Byte.xa9].

(** What a caller can observe of a final state apart from the printed
    lines: the image, the last metric and the trees tried. *)
Definition outcome (st : LoopState) : option Image * R * list ColorFunc :=
  (img st, variance st, trees st).

(** ** Shapes and parameters of trees *)

Section TreeNotions.
Local Open Scope R_scope.

(** The ranges from which [Generate] samples the parameters of a node. *)
Fixpoint params_in_range (f : ColorFunc) : Prop :=
  match f with
  | Constant r g b => -1 <= r < 1 /\ -1 <= g < 1 /\ -1 <= b < 1
  | VariableX | VariableY => True
  | Sin phase freq sub =>
    0 <= phase < 2 * PI /\ 0.5 <= freq < 3.5 /\ params_in_range sub
  | Product l r => params_in_range l /\ params_in_range r
  | Mix w l r => 0 <= w < 1 /\ params_in_range l /\ params_in_range r
  | Well sub => params_in_range sub
  | FractalNoise scale sub => 0.5 <= scale < 2.5 /\ params_in_range sub
  end.

Fixpoint has_Well (f : ColorFunc) : bool :=
  match f with
  | Constant _ _ _ | VariableX | VariableY => false
  | Well _ => true
  | Sin _ _ sub | FractalNoise _ sub => has_Well sub
  | Product l r | Mix _ l r => has_Well l || has_Well r
  end.

(** Number of nodes of a tree. *)
Fixpoint node_count (f : ColorFunc) : Z :=
  match f with
  | Constant _ _ _ | VariableX | VariableY => 1
  | Sin _ _ sub | Well sub | FractalNoise _ sub => 1 + node_count sub
  | Product l r | Mix _ l r => 1 + node_count l + node_count r
  end.

(** All three channels within [[-1, 1]]. *)
Definition in_unit (c : rgb) : Prop :=
  let '(r, g, b) := c in -1 <= r <= 1 /\ -1 <= g <= 1 /\ -1 <= b <= 1.

End TreeNotions.

(** Values that [rand.Float64] can return. *)
Definition drawn {rs : RandSource} (f : R) : Prop :=
  exists g : rng rs, f = fst (rand_Float64 rs g).

(** ** [polar] *)

Section Polar.
Local Open Scope R_scope.

(** [math.Atan2(y, x)] on the reals: the angle of the point [(x, y)], in
    [(-PI, PI]], and 0 at the origin. *)
Definition Atan2 (y x : R) : R :=
  if Rlt_dec 0 x then atan (y / x)
  else if Rlt_dec x 0 then
    (if Rle_dec 0 y then atan (y / x) + PI else atan (y / x) - PI)
  else if Rlt_dec 0 y then PI / 2
  else if Rlt_dec y 0 then - (PI / 2)
  else 0.

(** [polar(x, y)] returns [(r, theta)]. *)
Definition polar (x y : R) : R * R :=
  (sqrt (x * x + y * y), Atan2 y x).

End Polar.

(** ** The lines [CreateImage] prints for one attempt *)

Definition attempt_lines (seed : Hash.gostring) (size numWorkers : Z)
    (art : ColorFunc) : list Message :=
  ExpressionTree seed art
  :: (if Rgtb (metric size numWorkers art) 30.0 then []
      else [LowVarianceRetry]).

(** ** The handler [generateImage] *)

(** What the handler sends: [http.Error] with a message and a status, or
    the PNG encoding of an image (kept as the image itself). *)
Inductive Response : Type :=
  | HttpError (msg : Hash.gostring) (status : Z)
  | Png (im : option Image).

Definition StatusBadRequest : Z := 400.

Section Messages.
Import Strings.String.

Definition seed_required : Hash.gostring :=
  Eval cbv in list_byte_of_string "Seed is required"%string.

End Messages.

Section Handler.
(** [strconv.Atoi]: [None] stands for a non-nil error. *)
Variable Atoi : Hash.gostring -> option Z.
Context {rs : RandSource}.

(** The local [size] of the handler: 512 unless the parameter parses to a
    positive integer. *)
Definition request_size (sizeParam : Hash.gostring) : Z :=
  match Atoi sizeParam with
  | Some s => if (0 <? s)%Z then s else 512%Z
  | None => 512%Z
  end.

(** [generateImage] on the values of the query parameters [seed] and
    [size] (empty when absent), with the lines printed meanwhile. *)
Definition generateImage (numWorkers : Z) (seed sizeParam : Hash.gostring)
    : option (Response * list Message) :=
  match seed with
  | [] => Some (HttpError seed_required StatusBadRequest, [])
  | _ :: _ =>
    let size := request_size sizeParam in
    match CreateImage rs seed size numWorkers with
    | Some st => Some (Png (img st), printed st)
    | None => None
    end
  end.

End Handler.

Arguments generateImage Atoi rs numWorkers seed sizeParam : clear implicits.

(** A decimal parser with the behaviour of [strconv.Atoi] on a 64-bit
    platform: an optional sign, then one or more decimal digits, and a
    value that fits [int]; anything else is an error. *)
Definition digit_val (b : byte) : option Z :=
  let v := Hash.byte_val b in
  if ((48 <=? v) && (v <=? 57))%Z then Some (v - 48)%Z else None.

Fixpoint parse_digits (acc : Z) (s : list byte) : option Z :=
  match s with
  | [] => Some acc
  | b :: t =>
    match digit_val b with
    | Some d => parse_digits (acc * 10 + d)%Z t
    | None => None
    end
  end.

Definition decimal_Atoi (s : Hash.gostring) : option Z :=
  let '(neg, ds) :=
    match s with
    | b :: t =>
      if (Hash.byte_val b =? 45)%Z then (true, t)
      else if (Hash.byte_val b =? 43)%Z then (false, t)
      else (false, s)
    | [] => (false, [])
    end in
  match ds with
  | [] => None
  | _ :: _ =>
    match parse_digits 0 ds with
    | Some n =>
      let v := if neg : bool then (- n)%Z else n in
      if ((- 2 ^ 63 <=? v) && (v <? 2 ^ 63))%Z then Some v else None
    | None => None
    end
  end.

(** * Properties *)

(** ** The range loop and [hash] *)

Section HashFacts.
Import Hash.
Local Open Scope Z_scope.

Lemma byte_val_range (b : byte) : 0 <= byte_val b < 256.
Proof. destruct b; vm_compute; split; congruence. Qed.

Lemma decoderune_width (s : list Z) : (1 <= snd (decoderune s))%nat.
Proof.
  unfold decoderune.
  repeat (match goal with
          | |- context [match ?x with _ => _ end] => destruct x
          end; simpl; try lia).
Qed.

(** Collecting the code points first and folding afterwards is the same as
    running the body inside the loop. *)
Lemma range_loop_collect (fuel : nat) (s : list Z) (l : list Z) :
  range_loop (fun acc c => c :: acc) fuel s l
  = range_loop (fun acc c => c :: acc) fuel s [] ++ l.
Proof.
  revert s l. induction fuel as [|fuel IH]; intros s l; [by destruct s|].
  destruct s as [|b t]; [done|].
  cbn [range_loop]. destruct (decoderune (b :: t)) as [c w].
  rewrite (IH _ [c]), (IH _ (c :: l)), <- app_assoc. done.
Qed.

Lemma range_loop_fold {A} (body : A -> Z -> A) (fuel : nat) (s : list Z)
    (acc : A) :
  range_loop body fuel s acc
  = fold_left body (rev (range_loop (fun a c => c :: a) fuel s [])) acc.
Proof.
  revert s acc. induction fuel as [|fuel IH]; intros s acc; [by destruct s|].
  destruct s as [|b t]; [done|].
  cbn [range_loop]. destruct (decoderune (b :: t)) as [c w].
  rewrite range_loop_collect, rev_app_distr. cbn [rev app fold_left].
  apply IH.
Qed.

(** The fuel [length s] is never what ends the loop: more changes nothing. *)
Lemma range_loop_fuel {A} (body : A -> Z -> A) (fuel : nat) (s : list Z)
    (acc : A) :
  (length s <= fuel)%nat ->
  range_loop body fuel s acc = range_loop body (length s) s acc.
Proof.
  remember (length s) as n eqn:Hn. revert s acc fuel Hn.
  induction n as [n IH] using lt_wf_ind. intros s acc fuel -> Hle.
  destruct s as [|b t]; [by destruct fuel|].
  destruct fuel as [|fuel]; [simpl in Hle; lia|].
  cbn [length range_loop].
  pose proof (decoderune_width (b :: t)) as Hw.
  destruct (decoderune (b :: t)) as [c w]. cbn [snd] in Hw.
  assert (Hlen : (length (skipn w (b :: t)) <= length t)%nat).
  { rewrite length_skipn. cbn [length]. lia. }
  rewrite (IH (length (skipn w (b :: t)))); [|cbn [length]; lia|done|].
  2:{ cbn [length] in Hle. lia. }
  symmetry. apply (IH (length (skipn w (b :: t)))); [cbn [length]; lia|done|done].
Qed.

(** On bytes below [0x80] the loop visits the bytes themselves. *)
Lemma range_loop_ascii {A} (body : A -> Z -> A) (s : list Z) (acc : A) :
  Forall (fun b => b < 0x80) s ->
  range_loop body (length s) s acc = fold_left body s acc.
Proof.
  intros Hs. revert acc. induction Hs as [|b t Hb Ht IH]; intros acc; [done|].
  cbn [length range_loop decoderune]. unfold runeSelf.
  destruct (Z.ltb_spec b 0x80) as [_|?]; [|lia].
  cbn [skipn fold_left]. apply IH.
Qed.

Lemma lor_bound (n a b : Z) :
  0 <= a < 2 ^ n -> 0 <= b < 2 ^ n -> 0 <= Z.lor a b < 2 ^ n.
Proof.
  intros Ha Hb. split; [apply Z.lor_nonneg; lia|].
  destruct (Z.eq_dec a 0) as [->|Ha0]; [by rewrite Z.lor_0_l; lia|].
  destruct (Z.eq_dec b 0) as [->|Hb0]; [by rewrite Z.lor_0_r; lia|].
  assert (Hpos : 0 < Z.lor a b).
  { assert (0 <= Z.lor a b) by (apply Z.lor_nonneg; lia).
    destruct (Z.eq_dec (Z.lor a b) 0) as [H0|?]; [|lia].
    apply Z.lor_eq_0_iff in H0. lia. }
  apply Z.log2_lt_pow2; [done|].
  rewrite Z.log2_lor by lia.
  apply Z.max_lub_lt; apply Z.log2_lt_pow2; lia.
Qed.

Lemma lxor_bound (n a b : Z) :
  0 <= a < 2 ^ n -> 0 <= b < 2 ^ n -> 0 <= Z.lxor a b < 2 ^ n.
Proof.
  intros Ha Hb.
  assert (Hnn : 0 <= Z.lxor a b) by (apply Z.lxor_nonneg; lia).
  split; [done|].
  destruct (Z.eq_dec a 0) as [->|Ha0]; [by rewrite Z.lxor_0_l; lia|].
  destruct (Z.eq_dec b 0) as [->|Hb0]; [by rewrite Z.lxor_0_r; lia|].
  destruct (Z.eq_dec (Z.lxor a b) 0) as [->|Hx0]; [lia|].
  apply Z.log2_lt_pow2; [lia|].
  eapply Z.le_lt_trans; [apply Z.log2_lxor; lia|].
  apply Z.max_lub_lt; apply Z.log2_lt_pow2; lia.
Qed.

Lemma land_shift_bound (b k sh : Z) :
  0 <= k -> 0 <= sh -> k + sh <= 21 ->
  0 <= Z.shiftl (Z.land b (Z.ones k)) sh < 2 ^ 21.
Proof.
  intros Hk Hsh Hle. rewrite Z.land_ones, Z.shiftl_mul_pow2 by done.
  pose proof (Z.mod_pos_bound b (2 ^ k) ltac:(lia)) as Hm.
  assert (0 < 2 ^ sh) by lia.
  assert (2 ^ k * 2 ^ sh <= 2 ^ 21).
  { rewrite <- Z.pow_add_r by done. apply Z.pow_le_mono_r; lia. }
  nia.
Qed.

(** Every value the loop yields is a code point: it fits a [uint32]. *)
Lemma decoderune_range (s : list Z) :
  Forall (fun b => 0 <= b < 256) s ->
  0 <= fst (decoderune s) < 2 ^ 21.
Proof.
  intros Hs. unfold decoderune, runeError.
  destruct s as [|b0 t]; [simpl; lia|].
  apply Forall_cons in Hs as [Hb0 _].
  destruct (Z.ltb_spec b0 runeSelf); [unfold runeSelf in *; simpl; lia|].
  change 0x1F with (Z.ones 5). change 0x3F with (Z.ones 6).
  change 0x0F with (Z.ones 4). change 0x07 with (Z.ones 3).
  assert (Hl : forall b k, 0 <= k <= 21 -> 0 <= Z.land b (Z.ones k) < 2 ^ 21).
  { intros b k Hk. pose proof (land_shift_bound b k 0 ltac:(lia) ltac:(lia)
      ltac:(lia)) as Hx. by rewrite Z.shiftl_0_r in Hx. }
  repeat match goal with
         | |- context [if ?c then _ else _] => destruct c
         | |- context [match ?l with [] => _ | _ :: _ => _ end] => destruct l
         end; cbn [fst]; try lia;
    repeat apply lor_bound; try apply land_shift_bound; try apply Hl; lia.
Qed.

End HashFacts.

(** ** The decoder on sample encodings *)

Section DecoderExamples.
Import Hash.
Local Open Scope Z_scope.

(** U+20AC (three bytes) and U+1F600 (four bytes) are one code point each. *)
Example runes_euro : runes [Byte.xe2; Byte.x82; Byte.xac] = [0x20AC].
Proof. reflexivity. Qed.

Example runes_emoji :
  runes [Byte.xf0; Byte.x9f; Byte.x98; Byte.x80] = [0x1F600].
Proof. reflexivity. Qed.

(** Invalid input yields U+FFFD once per offending byte: a lone [0xFF], the
    overlong form [C0 80], the surrogate [ED A0 80], the truncated
    [E2 82]. *)
Example runes_invalid :
  runes [Byte.xff] = [0xFFFD]
  /\ runes [Byte.xc0; Byte.x80] = [0xFFFD; 0xFFFD]
  /\ runes [Byte.xed; Byte.xa0; Byte.x80] = [0xFFFD; 0xFFFD; 0xFFFD]
  /\ runes [Byte.xe2; Byte.x82] = [0xFFFD; 0xFFFD].
Proof. repeat split; reflexivity. Qed.

Example runes_mixed :
  runes [Byte.x61; Byte.xc3; Byte.xa9; Byte.x62] = [0x61; 0xE9; 0x62].
Proof. reflexivity. Qed.

End DecoderExamples.

(** ** Seeding *)

Section Seeding.
Context {rs : RandSource}.
Import Hash.

(** The seed string reaches the loop only through the initial state of the
    random source and the printed lines. *)
Lemma attempts_loop_seed (n : nat) (seed1 seed2 : gostring)
    (size numWorkers : Z) (st1 st2 : LoopState) (g : rng rs) :
  outcome st1 = outcome st2 ->
  match attempts_loop n seed1 size numWorkers st1 g,
        attempts_loop n seed2 size numWorkers st2 g with
  | Some (a, g1), Some (b, g2) => outcome a = outcome b /\ g1 = g2
  | None, None => True
  | _, _ => False
  end.
Proof.
  revert st1 st2 g. induction n as [|n IH]; intros st1 st2 g Hst; [done|].
  cbn [attempts_loop]. unfold mbind, Rand_bind, bind.
  destruct (Generate 31 10 30 g) as [[art g']|]; [|done].
  unfold outcome in Hst. injection Hst as Hi Hv Ht.
  destruct (Rgtb _ _).
  - unfold ret, outcome. cbn. by rewrite Ht.
  - apply IH. unfold outcome. cbn. by rewrite Ht.
Qed.

Lemma CreateImage_same_hash (seed1 seed2 : gostring) (size numWorkers : Z) :
  hash seed1 = hash seed2 ->
  outcome <$> CreateImage rs seed1 size numWorkers
  = outcome <$> CreateImage rs seed2 size numWorkers.
Proof.
  intros Hh. unfold CreateImage. rewrite Hh.
  pose proof (attempts_loop_seed 3 seed1 seed2 size numWorkers
    {| img := None; variance := 0; printed := []; trees := [] |}
    {| img := None; variance := 0; printed := []; trees := [] |}
    (rand_Seed rs (hash seed2)) eq_refl) as H.
  destruct (attempts_loop 3 seed1 _ _ _ _) as [[a g1]|],
           (attempts_loop 3 seed2 _ _ _ _) as [[b g2]|]; try done.
  destruct H as [Ho _]. unfold outcome in Ho. injection Ho as Hi Hv Ht.
  cbn [fmap option_fmap option_map]. rewrite Hv. f_equal.
  destruct (Rleb _ _); unfold outcome; cbn; by rewrite ?Hi, ?Hv, ?Ht.
Qed.

End Seeding.

Section HashClaims.
Import Hash.
Local Open Scope Z_scope.

Lemma fold_hash_step (cs : list Z) (h : Z) :
  Forall (fun c => 0 <= c < 2 ^ 32) cs ->
  fold_left hash_step cs h
  = fold_left (fun h c => Z.lxor ((h * 16777619) mod 2 ^ 32) c) cs h.
Proof.
  intros Hcs. revert h. induction Hcs as [|c cs Hc _ IH]; intros h; [done|].
  cbn [fold_left]. rewrite IH. unfold hash_step, uint32.
  by rewrite (Z.mod_small c) by done.
Qed.

Lemma range_loop_yields_code_points (fuel : nat) (s l : list Z) :
  Forall (fun b => 0 <= b < 256) s ->
  Forall (fun c => 0 <= c < 2 ^ 32) l ->
  Forall (fun c => 0 <= c < 2 ^ 32)
         (range_loop (fun a c => c :: a) fuel s l).
Proof.
  revert s l. induction fuel as [|fuel IH]; intros s l Hs Hl; [by destruct s|].
  destruct s as [|b t]; [done|].
  cbn [range_loop]. pose proof (decoderune_range (b :: t) Hs) as Hr.
  destruct (decoderune (b :: t)) as [c w]. cbn [fst] in Hr.
  apply IH.
  - rewrite <- (firstn_skipn w (b :: t)) in Hs. by apply Forall_app in Hs as [_ ?].
  - constructor; [lia|done].
Qed.

Lemma bytes_of_range (s : gostring) :
  Forall (fun b => 0 <= b < 256) (bytes_of s).
Proof.
  unfold bytes_of. induction s as [|b s IH]; constructor; [|done].
  apply byte_val_range.
Qed.

(** Example of the specification: the contribution of the only byte of
    ["a"]. *)
Example hash_a :
  hash [Byte.x61] = Z.lxor ((2166136261 * 16777619) mod 2 ^ 32) 97.
Proof. reflexivity. Qed.

Example hash_empty : hash [] = 2166136261.
Proof. reflexivity. Qed.

(** C1, as stated, fails: on the two-byte string [0xC3 0xA9] (the UTF-8
    encoding of U+00E9) [hash] is not the fold over the bytes of the
    string. The loop runs once, on the code point 233. *)
Lemma hash_e_acute_not_byte_fold :
  hash seed_e_acute <> fnv_fold (bytes_of seed_e_acute)
  /\ runes seed_e_acute = [233]
  /\ hash seed_e_acute = fnv_fold [233].
Proof. split; [|split]; vm_compute; congruence. Qed.

(** C1 (amended): for every seed string, [hash] is the 32-bit fold
    [h := (h * 16777619) xor c] from [h = 2166136261] over the code points
    [c] that the range loop decodes from the string; for a string of bytes
    below 128 this is the fold over its bytes.  [CreateImage] seeds the
    random source with this value: its image, metric and trees depend on
    the seed string through [hash] only. *)
Theorem hash_folds_code_points (seed : gostring) :
  hash seed = fnv_fold (runes seed)
  /\ (Forall (fun b => byte_val b < 128) seed ->
      hash seed = fnv_fold (bytes_of seed))
  /\ 0 <= hash seed < 2 ^ 32
  /\ (forall (rs : RandSource) (seed' : gostring) (size numWorkers : Z),
      hash seed' = hash seed ->
      outcome <$> CreateImage rs seed' size numWorkers
      = outcome <$> CreateImage rs seed size numWorkers).
Proof.
  assert (Hfold : hash seed = fnv_fold (runes seed)).
  { unfold hash, runes, range_string, fnv_fold.
    rewrite range_loop_fold. change (uint32 2166136261) with 2166136261.
    apply fold_hash_step. apply Forall_rev.
    apply range_loop_yields_code_points; [apply bytes_of_range|constructor]. }
  split; [done|]. split; [|split].
  - intros Hascii. unfold hash, range_string, fnv_fold, bytes_of.
    rewrite <- (length_map byte_val seed).
    rewrite range_loop_ascii by (by apply Forall_map).
    change (uint32 2166136261) with 2166136261.
    apply fold_hash_step. eapply Forall_impl; [apply bytes_of_range|].
    simpl. lia.
  - rewrite Hfold. unfold fnv_fold.
    assert (H : forall cs h, 0 <= h < 2 ^ 32 ->
      Forall (fun c => 0 <= c < 2 ^ 32) cs ->
      0 <= fold_left (fun h c => Z.lxor ((h * 16777619) mod 2 ^ 32) c) cs h
        < 2 ^ 32).
    { intros cs h Hh Hcs. revert h Hh.
      induction Hcs as [|c cs Hc _ IH]; intros h Hh; [done|].
      cbn [fold_left]. apply IH.
      apply lxor_bound; [|done]. apply Z.mod_pos_bound. lia. }
    apply H; [lia|]. apply Forall_rev.
    apply range_loop_yields_code_points; [apply bytes_of_range|constructor].
  - intros rs seed' size numWorkers Hh. by apply CreateImage_same_hash.
Qed.

Lemma hash_folds_code_points_witness :
  Forall (fun b => byte_val b < 128) [Byte.x61; Byte.x72; Byte.x74]
  /\ hash [Byte.x61; Byte.x72; Byte.x74]
     = fnv_fold (bytes_of [Byte.x61; Byte.x72; Byte.x74]).
Proof.
  assert (H : Forall (fun b => byte_val b < 128) [Byte.x61; Byte.x72; Byte.x74])
    by (repeat constructor).
  split; [exact H|].
  exact (proj1 (proj2 (hash_folds_code_points [Byte.x61; Byte.x72; Byte.x74])) H).
Defined.

End HashClaims.

(** ** [Generate]: termination and path lengths *)

Section GenerateFacts.
Context {rs : RandSource}.
Local Open Scope Z_scope.

Ltac run_rand :=
  unfold mbind, Rand_bind, bind, Float64, Intn, ret in *; cbn beta iota in *.

(** One call of [Generate], unfolded. *)
Lemma Generate_S (fuel : nat) (minDepth maxDepth : Z) :
  Generate (rs := rs) (S fuel) minDepth maxDepth
  = (stop ← leaf_condition minDepth maxDepth;
     if stop : bool then gen_leaf
     else
       k ← Intn 4;
       match k with
       | 0%Z =>
         p ← Float64; f ← Float64;
         sub ← Generate fuel (minDepth - 1) (maxDepth - 1);
         ret (Sin (p * 2 * PI) (0.5 + f * 3.0) sub)
       | 1%Z =>
         w ← Float64;
         l ← Generate fuel (minDepth - 1) (maxDepth - 1);
         r ← Generate fuel (minDepth - 1) (maxDepth - 1);
         ret (Mix w l r)
       | 2%Z =>
         l ← Generate fuel (minDepth - 1) (maxDepth - 1);
         r ← Generate fuel (minDepth - 1) (maxDepth - 1);
         ret (Product l r)
       | _ =>
         s ← Float64;
         sub ← Generate fuel (minDepth - 1) (maxDepth - 1);
         ret (FractalNoise (0.5 + s * 2.0) sub)
       end).
Proof. reflexivity. Qed.

Lemma leaf_condition_returns (minDepth maxDepth : Z) (g : rng rs) :
  exists stop g',
    leaf_condition (rs := rs) minDepth maxDepth g = Some (stop, g')
    /\ (stop = true ->
        maxDepth = 0
        \/ (minDepth <= 0 /\ (fst (rand_Float64 rs g) < 0.2)%R))
    /\ (stop = false -> maxDepth <> 0).
Proof.
  unfold leaf_condition.
  destruct (Z.eqb_spec maxDepth 0) as [->|Hmax].
  { exists true, g. run_rand. split; [done|]. split; [by left|done]. }
  destruct (Z.leb_spec minDepth 0) as [Hmin|Hmin]; run_rand.
  - destruct (rand_Float64 rs g) as [f g'] eqn:Hf. cbn [fst].
    exists (Rltb f 0.2), g'. split; [done|]. split; [|done].
    unfold Rltb. destruct (Rlt_dec f 0.2); [by right|done].
  - exists false, g. split; [done|]. split; done.
Qed.

Lemma gen_leaf_returns (g : rng rs) :
  exists t g', gen_leaf (rs := rs) g = Some (t, g') /\ leaf_depths t = [0].
Proof.
  unfold gen_leaf. run_rand.
  destruct (rand_Intn rs 3 g) as [k g1].
  destruct k as [|[| |]|]; try (eexists _, _; split; [reflexivity|done]);
    destruct (rand_Float64 rs g1) as [r g2];
    destruct (rand_Float64 rs g2) as [gr g3];
    destruct (rand_Float64 rs g3) as [b g4];
    eexists _, _; (split; [reflexivity|done]).
Qed.

Lemma Forall_succ_le (l : list Z) (lo hi : Z) :
  Forall (fun d => lo - 1 <= d <= hi - 1) l ->
  Forall (fun d => lo <= d <= hi) (map Z.succ l).
Proof.
  induction 1 as [|d l Hd _ IH]; cbn [map]; constructor; [lia|done].
Qed.

(** With more than [maxDepth] calls of fuel, [Generate] returns, and every
    leaf of its tree lies at a depth between [min minDepth maxDepth] and
    [maxDepth]. *)
Lemma Generate_returns (fuel : nat) (minDepth maxDepth : Z) (g : rng rs) :
  0 <= maxDepth -> (Z.to_nat maxDepth < fuel)%nat ->
  exists t g',
    Generate fuel minDepth maxDepth g = Some (t, g')
    /\ Forall (fun d => Z.min minDepth maxDepth <= d <= maxDepth)
              (leaf_depths t).
Proof.
  revert minDepth maxDepth g.
  induction fuel as [|fuel IH]; intros minDepth maxDepth g Hmax Hfuel; [lia|].
  cbn [Generate]. unfold mbind at 1, Rand_bind at 1, bind at 1.
  destruct (leaf_condition_returns minDepth maxDepth g)
    as (stop & g0 & -> & Htrue & Hfalse).
  destruct stop.
  - destruct (gen_leaf_returns g0) as (t & g' & -> & Hd).
    exists t, g'. split; [done|]. rewrite Hd.
    constructor; [|done]. destruct (Htrue eq_refl) as [->|[? _]]; lia.
  - specialize (Hfalse eq_refl).
    assert (Hsub : forall g1 : rng rs, exists t g',
      Generate fuel (minDepth - 1) (maxDepth - 1) g1 = Some (t, g')
      /\ Forall (fun d => Z.min minDepth maxDepth - 1 <= d <= maxDepth - 1)
                (leaf_depths t)).
    { intros g1. destruct (IH (minDepth - 1) (maxDepth - 1) g1)
        as (t & g' & Ht & Hd); [lia|lia|].
      exists t, g'. split; [done|].
      eapply Forall_impl; [exact Hd|]. simpl. lia. }
    run_rand. destruct (rand_Intn rs 4 g0) as [k g1].
    destruct k as [|[[| |]|[| |]|]|];
      repeat match goal with
             | |- context [rand_Float64 rs ?g] =>
               destruct (rand_Float64 rs g) as [? ?]
             | |- context [Generate fuel _ _ ?g] =>
               destruct (Hsub g) as (? & ? & -> & ?)
             end;
      (eexists _, _; split; [reflexivity|]);
      cbn [leaf_depths]; apply Forall_succ_le; try apply Forall_app; done.
Qed.

(** A call that returns with some fuel returns the same with more. *)
Lemma Generate_fuel_mono (fuel fuel' : nat) (minDepth maxDepth : Z)
    (g : rng rs) (res : ColorFunc * rng rs) :
  (fuel <= fuel')%nat ->
  Generate fuel minDepth maxDepth g = Some res ->
  Generate fuel' minDepth maxDepth g = Some res.
Proof.
  revert fuel' minDepth maxDepth g res.
  induction fuel as [|fuel IH]; intros fuel' minDepth maxDepth g res Hle Hg;
    [done|].
  destruct fuel' as [|fuel']; [lia|]. assert (Hle' : (fuel <= fuel')%nat) by lia.
  cbn [Generate] in *. unfold mbind at 1, Rand_bind at 1, bind at 1 in Hg.
  unfold mbind at 1, Rand_bind at 1, bind at 1.
  destruct (leaf_condition minDepth maxDepth g) as [[[] g0]|]; [done| |done].
  run_rand. destruct (rand_Intn rs 4 g0) as [k g1].
  destruct k as [|[[| |]|[| |]|]|];
    repeat match goal with
           | H : context [rand_Float64 rs ?g] |- _ =>
             destruct (rand_Float64 rs g) as [? ?]
           | H : context [Generate fuel ?a ?b ?g] |- _ =>
             let E := fresh "E" in
             destruct (Generate fuel a b g) as [[? ?]|] eqn:E;
             [rewrite (IH _ _ _ _ _ Hle' E)|discriminate]
           end; done.
Qed.

(** Only the leaf branch of [Generate] builds a leaf. *)
Lemma Generate_leaf_inv (fuel : nat) (minDepth maxDepth : Z) (g g' : rng rs)
    (t : ColorFunc) :
  Generate fuel minDepth maxDepth g = Some (t, g') ->
  is_leaf t = true ->
  maxDepth = 0 \/ (minDepth <= 0 /\ (fst (rand_Float64 rs g) < 0.2)%R).
Proof.
  destruct fuel as [|fuel]; [done|]. intros Hg Hleaf.
  cbn [Generate] in Hg. unfold mbind at 1, Rand_bind at 1, bind at 1 in Hg.
  destruct (leaf_condition_returns minDepth maxDepth g)
    as (stop & g0 & Hc & Htrue & _).
  rewrite Hc in Hg. destruct stop; [by apply Htrue|].
  run_rand. destruct (rand_Intn rs 4 g0) as [k g1].
  destruct k as [|[[| |]|[| |]|]|];
    repeat match goal with
           | H : context [rand_Float64 rs ?g] |- _ =>
             destruct (rand_Float64 rs g) as [? ?]
           | H : context [Generate fuel ?a ?b ?g] |- _ =>
             destruct (Generate fuel a b g) as [[? ?]|]; [|discriminate]
           end;
    injection Hg as <- _; discriminate.
Qed.

End GenerateFacts.

Lemma HalfSource_ok : RandSourceOk HalfSource.
Proof.
  split; [intros g; cbn; lra|intros n g Hn; cbn; lia].
Qed.

(** Below zero the depth budget is of no help: with a source that never
    draws below 0.2 the recursion does not end, whatever the fuel. *)
Lemma Generate_negative_budget (fuel : nat) (minDepth maxDepth : Z) (g : unit) :
  (maxDepth < 0)%Z ->
  Generate (rs := HalfSource) fuel minDepth maxDepth g = None.
Proof.
  revert minDepth maxDepth.
  induction fuel as [|fuel IH]; intros minDepth maxDepth Hmax; [done|].
  rewrite Generate_S. unfold mbind at 1, Rand_bind at 1, bind at 1.
  assert (Hc : leaf_condition (rs := HalfSource) minDepth maxDepth g
               = Some (false, g)).
  { unfold leaf_condition. destruct (Z.eqb_spec maxDepth 0); [lia|].
    destruct (minDepth <=? 0)%Z; [|done].
    unfold mbind, Rand_bind, bind, Float64, ret.
    cbn [rand_Float64 HalfSource]. unfold Rltb.
    destruct (Rlt_dec (1 / 2) 0.2); [lra|done]. }
  rewrite Hc. unfold mbind, Rand_bind, bind, Float64, Intn, ret.
  cbn [rand_Float64 rand_Intn HalfSource]. by rewrite IH by lia.
Qed.

(** C5: for every [minDepth] and every [maxDepth >= 0],
    [Generate(minDepth, maxDepth)] returns: [maxDepth] decreases by one at
    every recursive call, so [maxDepth + 1] nested calls are enough, for
    every state of the random source; and every root-to-leaf path of the
    returned tree has length at most [maxDepth]. *)
Theorem Generate_terminates (rs : RandSource) (minDepth maxDepth : Z)
    (g : rng rs) (fuel : nat) :
  (0 <= maxDepth)%Z -> (Z.to_nat maxDepth < fuel)%nat ->
  exists t g',
    Generate fuel minDepth maxDepth g = Some (t, g')
    /\ Forall (fun d => (d <= maxDepth)%Z) (leaf_depths t).
Proof.
  intros Hmax Hfuel.
  destruct (Generate_returns fuel minDepth maxDepth g Hmax Hfuel)
    as (t & g' & Ht & Hd).
  exists t, g'. split; [done|].
  eapply Forall_impl; [exact Hd|]. simpl. lia.
Qed.

Lemma Generate_terminates_witness :
  exists t g',
    Generate (rs := ReplaySource []) 31 10 30 [] = Some (t, g')
    /\ Forall (fun d => (d <= 30)%Z) (leaf_depths t).
Proof.
  apply (Generate_terminates (ReplaySource []) 10 30 [] 31);
    [lia|vm_compute; lia].
Defined.



(** ** Row bands and the pixel buffer *)

Section RasterFacts.
Local Open Scope Z_scope.

Lemma list_bind_assoc {A B C} (f : A -> list B) (g : B -> list C)
    (l : list A) :
  (l ≫= f) ≫= g = l ≫= (fun x => f x ≫= g).
Proof.
  induction l as [|x l IH]; [done|].
  by rewrite !bind_cons, bind_app, IH.
Qed.

Lemma list_fmap_bind_r {A B C} (f : B -> C) (g : A -> list B) (l : list A) :
  f <$> (l ≫= g) = l ≫= (fun x => f <$> g x).
Proof.
  induction l as [|x l IH]; [done|].
  by rewrite !bind_cons, fmap_app, IH.
Qed.

(** Rows of a worker, as an interval. *)
Lemma elem_of_worker_rows (size numWorkers rowsPerWorker worker py : Z) :
  py ∈ worker_rows size numWorkers rowsPerWorker worker <->
  worker * rowsPerWorker <= py
  /\ py < (if worker =? numWorkers - 1 then size
           else worker * rowsPerWorker + rowsPerWorker).
Proof.
  unfold worker_rows. rewrite elem_of_seqZ.
  destruct (worker =? numWorkers - 1); lia.
Qed.

(** The bands of the workers before the last one are full bands. *)
Lemma bands_before_last (size numWorkers q : Z) (k : nat) :
  0 <= q -> Z.of_nat k <= numWorkers - 1 ->
  seqZ 0 (Z.of_nat k) ≫= worker_rows size numWorkers q
  = seqZ 0 (Z.of_nat k * q).
Proof.
  intros Hq. induction k as [|k IH]; intros Hk; [done|].
  rewrite seqZ_S, bind_app, bind_singleton, IH by lia.
  unfold worker_rows. destruct (Z.eqb_spec (0 + Z.of_nat k) (numWorkers - 1));
    [lia|].
  replace (Z.of_nat (S k) * q) with (Z.of_nat k * q + q) by lia.
  rewrite seqZ_app by lia. do 2 f_equal; lia.
Qed.

(** The bands, taken in worker order, are the rows [0, ..., size - 1]:
    every row lies in exactly one band. *)
Lemma bands_partition (size numWorkers : Z) :
  0 <= size -> 0 < numWorkers ->
  seqZ 0 numWorkers ≫= worker_rows size numWorkers (Z.quot size numWorkers)
  = seqZ 0 size.
Proof.
  intros Hsize HN. rewrite Z.quot_div_nonneg by lia.
  set (q := size / numWorkers).
  assert (Hq : 0 <= q) by (apply Z.div_pos; lia).
  assert (Hqn : numWorkers * q <= size) by (apply Z.mul_div_le; lia).
  destruct (Z.to_nat numWorkers) as [|n] eqn:Hn; [lia|].
  pose proof (seqZ_S 0 n) as HS.
  replace (Z.of_nat (S n)) with numWorkers in HS by lia.
  rewrite HS, bind_app, bind_singleton, bands_before_last by lia.
  unfold worker_rows.
  destruct (Z.eqb_spec (0 + Z.of_nat n) (numWorkers - 1)); [|lia].
  transitivity (seqZ 0 (Z.of_nat n * q + (size - Z.of_nat n * q)));
    [|f_equal; lia].
  rewrite seqZ_app by nia. do 2 f_equal; lia.
Qed.

Lemma bands_disjoint (size numWorkers w1 w2 py : Z) :
  0 <= size -> 0 < numWorkers ->
  0 <= w1 < numWorkers -> 0 <= w2 < numWorkers ->
  py ∈ worker_rows size numWorkers (Z.quot size numWorkers) w1 ->
  py ∈ worker_rows size numWorkers (Z.quot size numWorkers) w2 ->
  w1 = w2.
Proof.
  intros Hsize HN Hw1 Hw2. rewrite !elem_of_worker_rows.
  rewrite Z.quot_div_nonneg by lia. set (q := size / numWorkers).
  assert (Hq : 0 <= q) by (apply Z.div_pos; lia).
  destruct (Z.eqb_spec w1 (numWorkers - 1)), (Z.eqb_spec w2 (numWorkers - 1));
    intros [H1 H1'] [H2 H2']; nia.
Qed.

Lemma elem_of_grid (size px py : Z) :
  (px, py) ∈ grid size <-> 0 <= px < size /\ 0 <= py < size.
Proof.
  unfold grid. rewrite list_elem_of_bind. split.
  - intros (y & (x & Hin & Hx)%list_elem_of_bind & Hy).
    apply list_elem_of_singleton in Hin. injection Hin as -> ->.
    apply elem_of_seqZ in Hx, Hy. lia.
  - intros [Hx Hy]. exists py. split; [|apply elem_of_seqZ; lia].
    apply list_elem_of_bind. exists px. split; [by apply list_elem_of_singleton|].
    apply elem_of_seqZ; lia.
Qed.

Lemma NoDup_grid (size : Z) : NoDup (grid size).
Proof.
  unfold grid. apply NoDup_bind; [| |apply NoDup_seqZ].
  - intros y1 y2 [px py] _ _ (x1 & H1 & _)%list_elem_of_bind
      (x2 & H2 & _)%list_elem_of_bind.
    apply list_elem_of_singleton in H1, H2. congruence.
  - intros y _. apply NoDup_bind; [| |apply NoDup_seqZ].
    + intros x1 x2 p _ _ H1 H2.
      apply list_elem_of_singleton in H1, H2. congruence.
    + intros x _. apply NoDup_singleton.
Qed.

Lemma length_bind_const {A B} (f : A -> list B) (l : list A) (n : nat) :
  (forall x, length (f x) = n) -> length (l ≫= f) = (length l * n)%nat.
Proof.
  intros Hf. induction l as [|x l IH]; [done|].
  rewrite bind_cons, length_app, IH, Hf. cbn [length]. lia.
Qed.

Lemma length_grid (size : Z) : 0 <= size ->
  Z.of_nat (length (grid size)) = size * size.
Proof.
  intros Hsize. unfold grid.
  rewrite (length_bind_const _ _ (Z.to_nat size)), length_seqZ; [lia|].
  intros py. rewrite (length_bind_const _ _ 1%nat), length_seqZ; [lia|done].
Qed.

(** The writes of a pass are one write per pixel of the grid, row by row,
    whatever the number of workers. *)
Lemma raster_writes_grid (art : ColorFunc) (size numWorkers : Z) :
  0 <= size -> 0 < numWorkers ->
  raster_writes art size numWorkers
  = (fun p => (p, pixel_color art size p.1 p.2)) <$> grid size.
Proof.
  intros Hsize HN. unfold raster_writes, worker_writes, grid. cbn zeta.
  rewrite <- list_bind_assoc, bands_partition by done.
  rewrite list_fmap_bind_r. apply list_bind_ext; [|done]. intros py.
  rewrite list_fmap_bind_r. apply list_bind_ext; [|done]. by intros px.
Qed.

End RasterFacts.

Section BufferFacts.
Local Open Scope Z_scope.

Lemma apply_write_bounds (im : Image) (w : write) :
  Rect_Min (apply_write im w) = Rect_Min im
  /\ Rect_Max (apply_write im w) = Rect_Max im.
Proof.
  destruct w as [[px py] c]. unfold apply_write, Set_.
  by destruct (in_bounds im px py).
Qed.

Lemma foldl_apply_write_bounds (ws : list write) (im : Image) :
  Rect_Min (foldl apply_write im ws) = Rect_Min im
  /\ Rect_Max (foldl apply_write im ws) = Rect_Max im.
Proof.
  revert im. induction ws as [|w ws IH]; intros im; [done|].
  cbn [foldl]. destruct (IH (apply_write im w)) as [-> ->].
  apply apply_write_bounds.
Qed.

Lemma in_bounds_ext (im' im : Image) (x y : Z) :
  Rect_Min im' = Rect_Min im -> Rect_Max im' = Rect_Max im ->
  in_bounds im' x y = in_bounds im x y.
Proof. unfold in_bounds. by intros -> ->. Qed.

(** The stored pixels after a sequence of writes to distinct positions:
    the written colour where a write landed inside the bounds, the old
    content elsewhere. *)
Lemma foldl_apply_write_lookup (ws : list write) (im : Image) (k : Z * Z) :
  NoDup (ws.*1) ->
  Pix (foldl apply_write im ws) !! k
  = match (list_to_map ws : gmap (Z * Z) RGBA) !! k with
    | Some c => if in_bounds im k.1 k.2 then Some c else Pix im !! k
    | None => Pix im !! k
    end.
Proof.
  revert im. induction ws as [|[[px py] c] ws IH]; intros im Hnd; [done|].
  rewrite fmap_cons in Hnd. apply NoDup_cons in Hnd as [Hnotin Hnd].
  cbn [fst] in Hnotin.
  cbn [foldl]. rewrite IH by done. cbn [list_to_map foldr].
  destruct (apply_write_bounds im (px, py, c)) as [Hmin Hmax].
  rewrite (in_bounds_ext _ im _ _ Hmin Hmax).
  destruct (decide (k = (px, py))) as [->|Hne].
  - rewrite lookup_insert_eq.
    rewrite (proj1 (not_elem_of_list_to_map ws (px, py)) Hnotin).
    unfold apply_write, Set_. cbn [fst snd].
    destruct (in_bounds im px py); [|done]. cbn [Pix].
    by rewrite lookup_insert_eq.
  - rewrite lookup_insert_ne by done.
    assert (Hold : Pix (apply_write im (px, py, c)) !! k = Pix im !! k).
    { unfold apply_write, Set_. destruct (in_bounds im px py); [|done].
      cbn [Pix]. by rewrite lookup_insert_ne. }
    by rewrite Hold.
Qed.

Lemma Image_eq (im im' : Image) :
  Rect_Min im = Rect_Min im' -> Rect_Max im = Rect_Max im' ->
  Pix im = Pix im' -> im = im'.
Proof. destruct im, im'; cbn; by intros -> -> ->. Qed.

(** Writes to distinct positions commute: the buffer after the barrier
    does not depend on the order in which the goroutines ran. *)
Lemma foldl_apply_write_perm (ws ws' : list write) (im : Image) :
  NoDup (ws.*1) -> ws' ≡ₚ ws ->
  foldl apply_write im ws' = foldl apply_write im ws.
Proof.
  intros Hnd Hperm.
  assert (Hnd' : NoDup (ws'.*1)) by (by rewrite Hperm).
  destruct (foldl_apply_write_bounds ws im) as [Hmin Hmax].
  destruct (foldl_apply_write_bounds ws' im) as [Hmin' Hmax'].
  apply Image_eq; [congruence|congruence|].
  apply map_eq. intros k. rewrite !foldl_apply_write_lookup by done.
  by rewrite (list_to_map_proper ws' ws Hnd' Hperm).
Qed.

Lemma raster_writes_keys (art : ColorFunc) (size numWorkers : Z) :
  0 <= size -> 0 < numWorkers ->
  (raster_writes art size numWorkers).*1 = grid size.
Proof.
  intros Hsize HN. rewrite raster_writes_grid by done.
  rewrite <- list_fmap_compose. apply list_fmap_id.
Qed.

(** After the pass, every pixel of the image holds the colour computed
    from [Eval] at its own sample point. *)
Lemma rasterize_RGBAAt (art : ColorFunc) (size numWorkers px py : Z) :
  0 < numWorkers -> 0 <= px < size -> 0 <= py < size ->
  RGBAAt (rasterize art size numWorkers) px py = pixel_color art size px py.
Proof.
  intros HN Hpx Hpy. unfold RGBAAt, rasterize.
  destruct (foldl_apply_write_bounds (raster_writes art size numWorkers)
              (NewRGBA size)) as [Hmin Hmax].
  rewrite (in_bounds_ext _ (NewRGBA size) _ _ Hmin Hmax).
  assert (Hin : in_bounds (NewRGBA size) px py = true).
  { unfold in_bounds, NewRGBA. cbn [Rect_Min Rect_Max].
    rewrite !andb_true_iff, !Z.leb_le, !Z.ltb_lt. lia. }
  rewrite Hin, foldl_apply_write_lookup
    by (rewrite raster_writes_keys by lia; apply NoDup_grid).
  cbn [fst snd]. rewrite Hin.
  assert (Hk : (list_to_map (raster_writes art size numWorkers)
                : gmap (Z * Z) RGBA) !! (px, py)
               = Some (pixel_color art size px py)).
  { apply elem_of_list_to_map.
    - rewrite raster_writes_keys by lia. apply NoDup_grid.
    - rewrite raster_writes_grid by lia. apply list_elem_of_fmap.
      exists (px, py). split; [done|]. by apply elem_of_grid. }
  by rewrite Hk.
Qed.

End BufferFacts.

(** ** Clamping and conversion to bytes *)

Section PixelFacts.
Local Open Scope R_scope.

Lemma normalize_clamp (v : R) : normalize v = clamp v.
Proof.
  unfold normalize, clamp, Rmax, Rmin.
  destruct (Rlt_dec v (-1)), (Rgt_dec v 1), (Rle_dec 1 v);
    destruct (Rle_dec (-1) 1); destruct (Rle_dec (-1) v); lra.
Qed.

Lemma clamp_range (v : R) : -1 <= clamp v <= 1.
Proof.
  unfold clamp, Rmax, Rmin.
  destruct (Rle_dec 1 v); [destruct (Rle_dec (-1) 1)|destruct (Rle_dec (-1) v)];
    lra.
Qed.

Lemma clamp_id (v : R) : -1 <= v <= 1 -> clamp v = v.
Proof.
  intros Hv. unfold clamp, Rmax, Rmin.
  destruct (Rle_dec 1 v); [destruct (Rle_dec (-1) 1)|destruct (Rle_dec (-1) v)];
    lra.
Qed.

(** Saturation, not wrap-around: values beyond the ends stay at the ends. *)
Lemma clamp_saturates (v : R) :
  (v < -1 -> clamp v = -1) /\ (1 < v -> clamp v = 1).
Proof.
  unfold clamp, Rmax, Rmin.
  destruct (Rle_dec 1 v); [destruct (Rle_dec (-1) 1)|destruct (Rle_dec (-1) v)];
    split; lra.
Qed.

Lemma uint8_in_range (v : R) : 0 <= v < 256 -> uint8 v = Zfloor v.
Proof.
  intros Hv. unfold uint8, Ztrunc. destruct (Rle_dec 0 v); [|lra].
  apply Z.mod_small. pose proof (Zfloor_bound v) as Hb.
  split.
  - apply Zfloor_lub. simpl. lra.
  - apply lt_IZR. lra.
Qed.

(** The byte of a clamped channel. *)
Lemma channel_byte_range (c : R) :
  -1 <= c <= 1 ->
  uint8 (128 + c * 127) = Zfloor (128 + c * 127)
  /\ (1 <= Zfloor (128 + c * 127) <= 255)%Z.
Proof.
  intros Hc. split; [apply uint8_in_range; lra|].
  pose proof (Zfloor_bound (128 + c * 127)) as Hb. split.
  - apply Zfloor_lub. simpl. lra.
  - apply Z.lt_succ_r, lt_IZR. rewrite succ_IZR. lra.
Qed.

Lemma pixel_color_bytes (art : ColorFunc) (size px py : Z) :
  pixel_color art size px py
  = let '(r, g, b) := Eval art (2 * IZR px / IZR size - 1)
                               (2 * IZR py / IZR size - 1) in
    mkRGBA (Zfloor (128 + clamp r * 127)) (Zfloor (128 + clamp g * 127))
           (Zfloor (128 + clamp b * 127)) 255.
Proof.
  unfold pixel_color.
  destruct (Eval art _ _) as [[r g] b].
  rewrite !normalize_clamp.
  by rewrite !(proj1 (channel_byte_range _ (clamp_range _))).
Qed.

Lemma sample_point_range (size p : Z) :
  (0 < size)%Z -> (0 <= p < size)%Z -> -1 <= 2 * IZR p / IZR size - 1 < 1.
Proof.
  intros Hs Hp. assert (0 < IZR size) by (by apply IZR_lt).
  assert (0 <= IZR p) by (apply IZR_le; lia).
  assert (IZR p < IZR size) by (apply IZR_lt; lia).
  assert (Hq : 0 <= IZR p / IZR size < 1).
  { assert (0 < / IZR size) by (apply Rinv_0_lt_compat; lra).
    split; [unfold Rdiv; apply Rmult_le_pos; lra|].
    apply Rmult_lt_reg_r with (IZR size); [lra|].
    unfold Rdiv. rewrite Rmult_assoc, Rinv_l by lra. lra. }
  unfold Rdiv in *. rewrite Rmult_assoc. lra.
Qed.

End PixelFacts.

(** ** The recorded run *)

Section SampleRun.
Variable ds : list Z.
Let rs := ReplaySource ds.

Lemma replay_ok : RandSourceOk rs.
Proof.
  split.
  - intros g. cbn [rand_Float64 rs ReplaySource fst].
    pose proof (Z.mod_pos_bound (hd 0%Z g) (2 ^ 53) ltac:(lia)) as [H0 H1].
    apply IZR_le in H0. apply IZR_lt in H1.
    assert (0 < IZR (2 ^ 53))%R by (apply IZR_lt; lia).
    split.
    + unfold Rdiv. apply Rmult_le_pos; [done|].
      left. by apply Rinv_0_lt_compat.
    + apply Rmult_lt_reg_r with (IZR (2 ^ 53)); [done|].
      unfold Rdiv. rewrite Rmult_assoc, Rinv_l by lra. lra.
  - intros n g Hn. cbn [rand_Intn rs ReplaySource fst].
    by apply Z.mod_pos_bound.
Qed.

Lemma zero_draw_lt : Rltb (IZR (0 mod 2 ^ 53) / IZR (2 ^ 53)) 0.2 = true.
Proof.
  unfold Rltb. destruct (Rlt_dec _ _) as [|Hn]; [done|]. exfalso. apply Hn.
  change (0 mod 2 ^ 53)%Z with 0%Z. unfold Rdiv. rewrite Rmult_0_l. lra.
Qed.

Lemma replay_leaf_X (fuel : nat) (maxDepth : Z) (g : list Z) :
  maxDepth <> 0%Z ->
  Generate (rs := rs) (S fuel) 0 maxDepth (0 :: 0 :: g)%Z
  = Some (VariableX, g).
Proof.
  intros Hmax. cbn [Generate]. unfold leaf_condition.
  destruct (Z.eqb_spec maxDepth 0); [done|].
  cbn [Z.leb Z.compare]. unfold mbind, Rand_bind, bind, Float64, Intn, ret.
  cbn [rand_Float64 rand_Intn rs ReplaySource hd tl]. rewrite zero_draw_lt.
  unfold gen_leaf, mbind, Rand_bind, bind, Float64, Intn, ret.
  cbn [rand_Float64 rand_Intn rs ReplaySource hd tl]. done.
Qed.

Lemma replay_leaf_Constant (fuel : nat) (maxDepth a b c : Z) (g : list Z) :
  maxDepth <> 0%Z ->
  Generate (rs := rs) (S fuel) 0 maxDepth (0 :: 2 :: a :: b :: c :: g)%Z
  = Some (Constant (IZR (a mod 2 ^ 53) / IZR (2 ^ 53) * 2 - 1)
                   (IZR (b mod 2 ^ 53) / IZR (2 ^ 53) * 2 - 1)
                   (IZR (c mod 2 ^ 53) / IZR (2 ^ 53) * 2 - 1), g).
Proof.
  intros Hmax. cbn [Generate]. unfold leaf_condition.
  destruct (Z.eqb_spec maxDepth 0); [done|].
  cbn [Z.leb Z.compare]. unfold mbind, Rand_bind, bind, Float64, Intn, ret.
  cbn [rand_Float64 rand_Intn rs ReplaySource hd tl]. rewrite zero_draw_lt.
  unfold gen_leaf, mbind, Rand_bind, bind, Float64, Intn, ret.
  cbn [rand_Float64 rand_Intn rs ReplaySource hd tl]. done.
Qed.

Lemma leaf_condition_interior (minDepth maxDepth : Z) (g : list Z) :
  (0 < minDepth)%Z -> maxDepth <> 0%Z ->
  leaf_condition (rs := rs) minDepth maxDepth g = Some (false, g).
Proof.
  intros Hmin Hmax. unfold leaf_condition.
  destruct (Z.eqb_spec maxDepth 0); [done|].
  destruct (Z.leb_spec minDepth 0); [lia|done].
Qed.

Lemma replay_sin_chain (n fuel : nat) (maxDepth : Z) (g : list Z) :
  (n < fuel)%nat -> (Z.of_nat n < maxDepth)%Z ->
  Generate (rs := rs) fuel (Z.of_nat n) maxDepth
    (repeat 0%Z (3 * n + 2) ++ g)
  = Some (sin_chain n, g).
Proof.
  revert fuel maxDepth. induction n as [|n IH]; intros fuel maxDepth Hf Hmax.
  - destruct fuel as [|fuel]; [lia|]. apply replay_leaf_X. lia.
  - destruct fuel as [|fuel]; [lia|].
    replace (3 * S n + 2)%nat with (3 + (3 * n + 2))%nat by lia.
    rewrite repeat_app, <- app_assoc. cbn [repeat app]. rewrite Generate_S.
    unfold mbind at 1, Rand_bind at 1, bind at 1.
    rewrite leaf_condition_interior by lia.
    unfold mbind, Rand_bind, bind, Float64, Intn, ret.
    cbn [rand_Float64 rand_Intn rs ReplaySource hd tl].
    change (0 mod 4)%Z with 0%Z. cbv iota.
    replace (Z.of_nat (S n) - 1)%Z with (Z.of_nat n) by lia.
    rewrite IH by lia. done.
Qed.

Lemma replay_mix_chain (n fuel : nat) (maxDepth : Z) (g : list Z) :
  (S n < fuel)%nat -> (Z.of_nat n + 1 < maxDepth)%Z ->
  Generate (rs := rs) fuel (Z.of_nat n + 1) maxDepth (mix_draws n ++ g)
  = Some (mix_chain n, g).
Proof.
  revert fuel maxDepth. induction n as [|n IH]; intros fuel maxDepth Hf Hmax.
  - destruct fuel as [|[|fuel]]; [lia|lia|].
    cbn [mix_draws app]. rewrite Generate_S.
    unfold mbind at 1, Rand_bind at 1, bind at 1.
    rewrite leaf_condition_interior by lia.
    unfold mbind at 1, Rand_bind at 1, bind at 1, Intn at 1.
    cbn [rand_Intn rs ReplaySource hd tl]. change (2 mod 4)%Z with 2%Z.
    cbv iota. change (Z.of_nat 0 + 1 - 1)%Z with 0%Z.
    unfold mbind at 1, Rand_bind at 1, bind at 1.
    rewrite (replay_leaf_X fuel (maxDepth - 1)) by lia.
    unfold mbind at 1, Rand_bind at 1, bind at 1.
    rewrite (replay_leaf_Constant fuel (maxDepth - 1)) by lia.
    unfold ret.
    change (2 ^ 51 mod 2 ^ 53)%Z with (2 ^ 51)%Z.
    change (2 ^ 52 mod 2 ^ 53)%Z with (2 ^ 52)%Z. done.
  - destruct fuel as [|fuel]; [lia|].
    cbn [mix_draws]. rewrite <- !app_assoc. cbn [app]. rewrite Generate_S.
    unfold mbind at 1, Rand_bind at 1, bind at 1.
    rewrite leaf_condition_interior by lia.
    unfold mbind at 1, Rand_bind at 1, bind at 1, Intn at 1.
    cbn [rand_Intn rs ReplaySource hd tl]. change (1 mod 4)%Z with 1%Z.
    cbv iota.
    unfold mbind at 1, Rand_bind at 1, bind at 1, Float64 at 1.
    cbn [rand_Float64 rs ReplaySource hd tl].
    replace (Z.of_nat (S n) + 1 - 1)%Z with (Z.of_nat (S n)) by lia.
    unfold mbind at 1, Rand_bind at 1, bind at 1.
    rewrite replay_sin_chain by lia.
    unfold mbind at 1, Rand_bind at 1, bind at 1.
    replace (Z.of_nat (S n)) with (Z.of_nat n + 1)%Z by lia.
    rewrite IH by lia. done.
Qed.

Lemma sample_generate :
  Generate (rs := rs) 31 10 30 sample_draws = Some (sample_tree, []).
Proof.
  pose proof (replay_mix_chain 9 31 30 [] ltac:(lia) ltac:(lia)) as H.
  rewrite app_nil_r in H. exact H.
Qed.

End SampleRun.

Section SampleImage.
Local Open Scope R_scope.

Lemma Eval_Mix_zero (l r : ColorFunc) (x y : R) :
  Eval (Mix (0 / IZR (2 ^ 53)) l r) x y = Eval r x y.
Proof.
  cbn [Eval]. destruct (Eval l x y) as [[r1 g1] b1].
  destruct (Eval r x y) as [[r2 g2] b2].
  unfold Rdiv. rewrite Rmult_0_l. f_equal; [f_equal|]; ring.
Qed.

Lemma Eval_sample_tree (x y : R) : Eval sample_tree x y = (- x / 2, 0, 0).
Proof.
  unfold sample_tree.
  assert (H : forall n, Eval (mix_chain n) x y = Eval sample_core x y).
  { induction n as [|n IH]; [done|]. cbn [mix_chain]. by rewrite Eval_Mix_zero. }
  rewrite H. unfold sample_core. cbn [Eval].
  change (2 ^ 51)%Z with 2251799813685248%Z.
  change (2 ^ 52)%Z with 4503599627370496%Z.
  change (2 ^ 53)%Z with 9007199254740992%Z.
  f_equal; [f_equal|]; lra.
Qed.

Lemma sample_pixel_left (py : Z) :
  pixel_color sample_tree 2 0 py = mkRGBA 191 128 128 255.
Proof.
  rewrite pixel_color_bytes, Eval_sample_tree.
  replace (- (2 * 0 / 2 - 1) / 2) with (1 / 2) by lra.
  rewrite !clamp_id by lra.
  rewrite (Zfloor_eq 191) by (simpl; lra).
  rewrite (Zfloor_eq 128) by (simpl; lra). done.
Qed.

Lemma sample_pixel_right (py : Z) :
  pixel_color sample_tree 2 1 py = mkRGBA 128 128 128 255.
Proof.
  rewrite pixel_color_bytes, Eval_sample_tree.
  replace (- (2 * 1 / 2 - 1) / 2) with 0 by lra.
  rewrite !clamp_id by lra.
  rewrite (Zfloor_eq 128) by (simpl; lra). done.
Qed.

Lemma sample_metric : metric 2 1 sample_tree = 31.5.
Proof.
  assert (Hl : forall py, (0 <= py < 2)%Z ->
    RGBAAt (rasterize sample_tree 2 1) 0 py = mkRGBA 191 128 128 255).
  { intros py Hpy. rewrite rasterize_RGBAAt by lia. apply sample_pixel_left. }
  assert (Hr : forall py, (0 <= py < 2)%Z ->
    RGBAAt (rasterize sample_tree 2 1) 1 py = mkRGBA 128 128 128 255).
  { intros py Hpy. rewrite rasterize_RGBAAt by lia. apply sample_pixel_right. }
  unfold metric, calculateColorVariance.
  generalize dependent (rasterize sample_tree 2 1). intros im Hl Hr.
  change (seqZ 0 2) with [0; 1]%Z.
  cbn [foldl accumulate rTotal gTotal bTotal rSq gSq bSq].
  rewrite !(Hl 0%Z), !(Hl 1%Z), !(Hr 0%Z), !(Hr 1%Z) by lia.
  cbn [cR cG cB].
  change (2 * 2)%Z with 4%Z.
  match goal with |- sqrt ?e = _ => replace e with (31.5 * 31.5) by lra end.
  apply sqrt_square. lra.
Qed.

(** The recorded run of [CreateImage] at size 2 with one worker: the
    first tree is accepted with metric 31.5, and the warning is printed. *)
Lemma sample_run (seed : Hash.gostring) :
  CreateImage (ReplaySource sample_draws) seed 2 1
  = Some {| img := Some (rasterize sample_tree 2 1);
            variance := 31.5;
            printed := [ExpressionTree seed sample_tree; LowVarianceWarning];
            trees := [sample_tree] |}.
Proof.
  unfold CreateImage. cbn [rand_Seed ReplaySource attempts_loop].
  unfold mbind at 1, Rand_bind at 1, bind at 1.
  rewrite (sample_generate sample_draws).
  fold (metric 2 1 sample_tree). rewrite sample_metric.
  assert (Hgt : Rgtb 31.5 30.0 = true).
  { unfold Rgtb. destruct (Rgt_dec 31.5 30.0); [done|lra]. }
  assert (Hle : Rleb 31.5 50.0 = true).
  { unfold Rleb. destruct (Rle_dec 31.5 50.0); [done|lra]. }
  rewrite Hgt. unfold ret. cbn [variance]. rewrite Hle. done.
Qed.

End SampleImage.

(** ** The retry loop *)

Section GateFacts.
Context {rs : RandSource}.
Local Open Scope R_scope.

Lemma Rgtb_spec (a b : R) : if Rgtb a b then a > b else a <= b.
Proof. unfold Rgtb. destruct (Rgt_dec a b); lra. Qed.

Lemma Rleb_spec (a b : R) : if Rleb a b then a <= b else a > b.
Proof. unfold Rleb. destruct (Rle_dec a b); lra. Qed.

Lemma attempts_loop_S (n : nat) (seed : Hash.gostring) (size numWorkers : Z)
    (st : LoopState) :
  attempts_loop (rs := rs) (S n) seed size numWorkers st
  = (art ← Generate 31 10 30;
     let im := rasterize art size numWorkers in
     let v := calculateColorVariance im size in
     let st' := {| img := Some im; variance := v;
                   printed := printed st ++ [ExpressionTree seed art];
                   trees := trees st ++ [art] |} in
     if Rgtb v 30.0 then ret st'
     else attempts_loop n seed size numWorkers
            {| img := img st'; variance := variance st';
               printed := printed st' ++ [LowVarianceRetry];
               trees := trees st' |}).
Proof. reflexivity. Qed.

(** A loop with [n + 1] iterations left returns; the trees it builds are
    some rejected ones, each of metric at most 30, followed by the tree of
    the returned image; it gives up on fewer than [n] rejections only for a
    tree of metric above 30; and it never prints the warning. *)
Lemma attempts_loop_returns (n : nat) (seed : Hash.gostring)
    (size numWorkers : Z) (st : LoopState) (g : rng rs) :
  exists st' g' rejected t,
    attempts_loop (S n) seed size numWorkers st g = Some (st', g')
    /\ trees st' = trees st ++ rejected ++ [t]
    /\ Forall (fun u => metric size numWorkers u <= 30) rejected
    /\ (length rejected <= n)%nat
    /\ ((length rejected < n)%nat -> metric size numWorkers t > 30)
    /\ variance st' = metric size numWorkers t
    /\ img st' = Some (rasterize t size numWorkers)
    /\ (LowVarianceWarning ∈ printed st' <-> LowVarianceWarning ∈ printed st).
Proof.
  assert (Hmsg : forall (l : list Message) (m : Message),
    m <> LowVarianceWarning ->
    LowVarianceWarning ∈ l ++ [m] <-> LowVarianceWarning ∈ l).
  { intros l m Hm. rewrite elem_of_app, list_elem_of_singleton.
    split; [intros [?|?]; [done|congruence]|by left]. }
  revert st g. induction n as [|n IH]; intros st g;
    rewrite attempts_loop_S; unfold mbind at 1, Rand_bind at 1, bind at 1;
    destruct (Generate_returns 31 10 30 g ltac:(lia) ltac:(vm_compute; lia))
      as (t & g1 & -> & _);
    cbv zeta; fold (metric size numWorkers t);
    pose proof (Rgtb_spec (metric size numWorkers t) 30.0) as Hv;
    destruct (Rgtb (metric size numWorkers t) 30.0).
  - eexists _, g1, [], t. split; [reflexivity|].
    cbn [trees variance img printed app length].
    split; [done|]. split; [constructor|]. split; [lia|].
    split; [intros; lia|]. split; [done|]. split; [done|].
    by apply Hmsg.
  - eexists _, g1, [], t. split; [reflexivity|].
    cbn [trees variance img printed app length].
    split; [done|]. split; [constructor|]. split; [lia|].
    split; [intros; lia|]. split; [done|]. split; [done|].
    rewrite !Hmsg; done.
  - eexists _, g1, [], t. split; [reflexivity|].
    cbn [trees variance img printed app length].
    split; [done|]. split; [constructor|]. split; [lia|].
    split; [intros _; lra|]. split; [done|]. split; [done|].
    by apply Hmsg.
  - match goal with
    | |- context [attempts_loop (S n) _ _ _ ?s g1] =>
      destruct (IH s g1) as (st' & g' & rej & t' & -> & Ht & Hrej & Hlen
                               & Hacc & Hvar & Himg & Hpr)
    end.
    cbn [trees variance img printed] in *.
    exists st', g', (t :: rej), t'. split; [done|].
    split; [by rewrite Ht, <- !app_assoc|].
    split; [constructor; [lra|done]|]. split; [cbn [length]; lia|].
    split; [intros; apply Hacc; cbn [length] in *; lia|].
    split; [done|]. split; [done|].
    rewrite Hpr, !Hmsg; done.
Qed.

End GateFacts.

(** [CreateImage] returns; its final state in terms of the trees tried. *)
Lemma CreateImage_returns (rs : RandSource) (seed : Hash.gostring)
    (size numWorkers : Z) :
  exists st rejected t,
    CreateImage rs seed size numWorkers = Some st
    /\ trees st = rejected ++ [t]
    /\ Forall (fun u => (metric size numWorkers u <= 30)%R) rejected
    /\ (length rejected <= 2)%nat
    /\ ((length rejected < 2)%nat -> (metric size numWorkers t > 30)%R)
    /\ variance st = metric size numWorkers t
    /\ img st = Some (rasterize t size numWorkers)
    /\ (LowVarianceWarning ∈ printed st <-> (variance st <= 50)%R).
Proof.
  unfold CreateImage.
  destruct (attempts_loop_returns 2 seed size numWorkers
              {| img := None; variance := 0; printed := []; trees := [] |}
              (rand_Seed rs (Hash.hash seed)))
    as (st & g' & rej & t & -> & Ht & Hrej & Hlen & Hacc & Hvar & Himg & Hpr).
  cbn [trees printed app] in Ht, Hpr.
  pose proof (Rleb_spec (variance st) 50.0) as Hw.
  assert (Hno : LowVarianceWarning ∉ printed st)
    by (rewrite Hpr; apply not_elem_of_nil).
  eexists _, rej, t. split; [reflexivity|].
  destruct (Rleb (variance st) 50.0); cbn [trees variance img printed].
  - do 6 (split; [done|]). rewrite elem_of_app, list_elem_of_singleton.
    split; [intros _; lra|by right].
  - do 6 (split; [done|]). split; [done|lra].
Qed.

(** C3, as stated, fails: in the recorded run the first tree is accepted
    with metric 31.5 (above 30, a single attempt), and the warning is
    printed nevertheless. *)
Lemma warning_on_accepted_image :
  exists st,
    CreateImage (ReplaySource sample_draws) [] 2 1 = Some st
    /\ trees st = [sample_tree]
    /\ (variance st > 30)%R
    /\ LowVarianceWarning ∈ printed st.
Proof.
  eexists. split; [apply sample_run|]. cbn [trees variance printed].
  split; [done|]. split; [lra|]. set_solver.
Qed.

(** C3 (amended): [CreateImage] returns after at most 3 attempts; every
    attempt before the last had a metric of at most 30, and fewer than 3
    attempts are made only when the last metric exceeds 30, so the loop
    stops at the first metric above 30; the returned image and metric are
    those of the last attempt; and the warning is printed exactly when the
    final metric is at most 50, whether the image was accepted above 30 or
    the attempts were used up. *)
Theorem quality_gate (rs : RandSource) (seed : Hash.gostring)
    (size numWorkers : Z) :
  exists st rejected t,
    CreateImage rs seed size numWorkers = Some st
    /\ trees st = rejected ++ [t]
    /\ Forall (fun u => (metric size numWorkers u <= 30)%R) rejected
    /\ (length rejected <= 2)%nat
    /\ ((length rejected < 2)%nat -> (metric size numWorkers t > 30)%R)
    /\ variance st = metric size numWorkers t
    /\ img st = Some (rasterize t size numWorkers)
    /\ (LowVarianceWarning ∈ printed st <-> (variance st <= 50)%R).
Proof. apply CreateImage_returns. Qed.

(** ** Rasterization: claims *)

(** C9: for any tree and any [size >= 1], a pass with [numWorkers >= 1]
    workers leaves the same image as a pass with one worker.  The bands
    [rowsPerWorker = size / numWorkers] (the last one extended to [size]),
    taken in worker order, are exactly the rows [0 .. size - 1], and two
    distinct workers share no row; the pass writes each pixel of the grid
    exactly once; the value written at [(px, py)] is [pixel_color], a
    function of the tree, the size and the pixel only; the buffer is the
    same for every order in which the writes are performed. *)
Theorem raster_workers_agree (art : ColorFunc) (size numWorkers : Z) :
  (1 <= size)%Z -> (1 <= numWorkers)%Z ->
  rasterize art size numWorkers = rasterize art size 1
  /\ seqZ 0 numWorkers
       ≫= worker_rows size numWorkers (Z.quot size numWorkers)
     = seqZ 0 size
  /\ (forall w1 w2 py : Z,
        (0 <= w1 < numWorkers)%Z -> (0 <= w2 < numWorkers)%Z ->
        py ∈ worker_rows size numWorkers (Z.quot size numWorkers) w1 ->
        py ∈ worker_rows size numWorkers (Z.quot size numWorkers) w2 ->
        w1 = w2)
  /\ (raster_writes art size numWorkers).*1 = grid size
  /\ NoDup (grid size)
  /\ (forall px py : Z,
        (px, py) ∈ grid size <-> (0 <= px < size)%Z /\ (0 <= py < size)%Z)
  /\ (forall (px py : Z) (c : RGBA),
        (px, py, c) ∈ raster_writes art size numWorkers ->
        c = pixel_color art size px py)
  /\ (forall ws : list write,
        ws ≡ₚ raster_writes art size numWorkers ->
        foldl apply_write (NewRGBA size) ws = rasterize art size numWorkers)
  /\ (forall px py : Z,
        (0 <= px < size)%Z -> (0 <= py < size)%Z ->
        RGBAAt (rasterize art size numWorkers) px py
        = pixel_color art size px py).
Proof.
  intros Hsize HN.
  split; [unfold rasterize; by rewrite !raster_writes_grid by lia|].
  split; [apply bands_partition; lia|].
  split; [intros w1 w2 py ? ?; apply bands_disjoint; lia|].
  split; [apply raster_writes_keys; lia|].
  split; [apply NoDup_grid|]. split; [apply elem_of_grid|].
  split; [|split].
  - intros px py c. rewrite raster_writes_grid by lia.
    intros ([px' py'] & Heq & _)%list_elem_of_fmap. by injection Heq as -> -> ->.
  - intros ws Hperm. apply foldl_apply_write_perm; [|done].
    rewrite raster_writes_keys by lia. apply NoDup_grid.
  - intros px py Hpx Hpy. apply rasterize_RGBAAt; lia.
Qed.

Lemma raster_workers_agree_witness :
  rasterize VariableX 5 3 = rasterize VariableX 5 1.
Proof.
  exact (proj1 (raster_workers_agree VariableX 5 3 ltac:(lia) ltac:(lia))).
Defined.






(** ** Node evaluation: claims *)

Section EvalClaims.
Local Open Scope R_scope.

(** The denominator of [well] is never zero. *)
Lemma well_denominator (v : R) : 1 <= 1 + v ^ 2.
Proof. pose proof (pow2_ge_0 v). lra. Qed.

(** C4: for every child and all real [(x, y)], [Well.Eval] applies
    [v |-> 1 - 2/(1+v^2)] to each component of the child's output at
    [(x, y)], and [FractalNoise.Eval] evaluates its child at
    [(x*scale, y*scale)] and applies [v |-> 0.5*(sin(5v)+cos(5v))] to each
    component. *)
Theorem Eval_Well_FractalNoise (sub : ColorFunc) (scale x y : R) :
  Eval (Well sub) x y
  = map3 (fun v => 1 - 2 / (1 + v * v)) (Eval sub x y)
  /\ Eval (FractalNoise scale sub) x y
     = map3 (fun v => 0.5 * (sin (5 * v) + cos (5 * v)))
            (Eval sub (x * scale) (y * scale)).
Proof.
  split; cbn [Eval].
  - destruct (Eval sub x y) as [[r g] b]. unfold map3, well.
    by rewrite <- !Rsqr_pow2.
  - by destruct (Eval sub (x * scale) (y * scale)) as [[r g] b].
Qed.

End EvalClaims.

(** ** [calculateColorVariance]: claims *)

Section VarianceClaims.
Local Open Scope R_scope.

Lemma foldl_bind {A B C} (f : A -> C -> A) (g : B -> list C) (l : list B)
    (a : A) :
  foldl f a (l ≫= g) = foldl (fun a x => foldl f a (g x)) a l.
Proof.
  revert a. induction l as [|x l IH]; intros a; [done|].
  by rewrite bind_cons, foldl_app, IH.
Qed.

Lemma foldl_ext_eq {A B} (f g : A -> B -> A) (l : list B) (a : A) :
  (forall a x, f a x = g a x) -> foldl f a l = foldl g a l.
Proof.
  intros Hfg. revert a. induction l as [|x l IH]; intros a; [done|].
  cbn [foldl]. by rewrite Hfg, IH.
Qed.

(** The two nested loops visit the pixels of the grid. *)
Lemma variance_loops_grid (im : Image) (size : Z) (acc : sums) :
  foldl (fun acc py => foldl (accumulate im py) acc (seqZ 0 size)) acc
        (seqZ 0 size)
  = foldl (fun acc p => accumulate im p.2 acc p.1) acc (grid size).
Proof.
  unfold grid. rewrite foldl_bind. apply foldl_ext_eq. intros a py.
  rewrite foldl_bind. apply foldl_ext_eq. by intros a' px.
Qed.

Lemma sumR_cons (x : R) (l : list R) : sumR (x :: l) = x + sumR l.
Proof. done. Qed.

(** The accumulators after the loops: what they held before plus the sums
    of the channel values and of their squares over the pixels visited. *)
Lemma accumulate_sums (im : Image) (ps : list (Z * Z)) (acc : sums) :
  let cs := (fun p => RGBAAt im p.1 p.2) <$> ps in
  let s := foldl (fun acc p => accumulate im p.2 acc p.1) acc ps in
  rTotal s = rTotal acc + sumR ((fun c => IZR (cR c)) <$> cs)
  /\ gTotal s = gTotal acc + sumR ((fun c => IZR (cG c)) <$> cs)
  /\ bTotal s = bTotal acc + sumR ((fun c => IZR (cB c)) <$> cs)
  /\ rSq s = rSq acc + sumR ((fun c => IZR (cR c) * IZR (cR c)) <$> cs)
  /\ gSq s = gSq acc + sumR ((fun c => IZR (cG c) * IZR (cG c)) <$> cs)
  /\ bSq s = bSq acc + sumR ((fun c => IZR (cB c) * IZR (cB c)) <$> cs).
Proof.
  cbv zeta. revert acc. induction ps as [|p ps IH]; intros acc.
  - cbn. repeat split; lra.
  - cbn [foldl]. rewrite !fmap_cons, !sumR_cons.
    destruct (IH (accumulate im p.2 acc p.1)) as (-> & -> & -> & -> & -> & ->).
    cbn [accumulate rTotal gTotal bTotal rSq gSq bSq]. repeat split; lra.
Qed.

(** C8: [calculateColorVariance(img, size)] is
    [sqrt((E[R^2]-E[R]^2) + (E[G^2]-E[G]^2) + (E[B^2]-E[B]^2))], each mean
    being the sum over the stored channel values of the [size * size]
    pixels [(px, py)], [0 <= px, py < size], divided by [size * size]. *)
Theorem variance_formula (im : Image) (size : Z) :
  (0 < size)%Z ->
  calculateColorVariance im size
  = sqrt (channel_variance cR im size + channel_variance cG im size
          + channel_variance cB im size)
  /\ Z.of_nat (length (pixels im size)) = (size * size)%Z
  /\ pixels im size = (fun p => RGBAAt im p.1 p.2) <$> grid size
  /\ (forall px py : Z,
        (px, py) ∈ grid size <-> (0 <= px < size)%Z /\ (0 <= py < size)%Z)
  /\ NoDup (grid size).
Proof.
  intros Hsize. split; [|split; [|split; [done|split]]].
  - unfold calculateColorVariance, channel_variance, mean, pixels.
    rewrite variance_loops_grid.
    destruct (accumulate_sums im (grid size) (mkSums 0 0 0 0 0 0))
      as (-> & -> & -> & -> & -> & ->).
    cbn [rTotal gTotal bTotal rSq gSq bSq]. rewrite !Rplus_0_l. done.
  - unfold pixels. rewrite length_fmap. apply length_grid. lia.
  - apply elem_of_grid.
  - apply NoDup_grid.
Qed.

Lemma variance_formula_witness :
  calculateColorVariance (rasterize VariableY 3 2) 3
  = sqrt (channel_variance cR (rasterize VariableY 3 2) 3
          + channel_variance cG (rasterize VariableY 3 2) 3
          + channel_variance cB (rasterize VariableY 3 2) 3).
Proof.
  exact (proj1 (variance_formula (rasterize VariableY 3 2) 3 ltac:(lia))).
Defined.

End VarianceClaims.

(** * Further properties of the code *)

(** ** Trees built by [Generate] *)

Section GenerateShapes.
Context {rs : RandSource}.
Local Open Scope Z_scope.

(** Induction over the calls of [Generate]: a property of the depth budget
    and the tree that holds for the leaves and is preserved by the four
    interior cases holds for every returned tree. *)
Lemma Generate_tree_ind (P : Z -> ColorFunc -> Prop) :
  (forall md, P md VariableX) ->
  (forall md, P md VariableY) ->
  (forall md r g b, drawn (rs := rs) r -> drawn (rs := rs) g ->
     drawn (rs := rs) b ->
     P md (Constant (r * 2 - 1) (g * 2 - 1) (b * 2 - 1))) ->
  (forall md p f sub, md <> 0 -> drawn (rs := rs) p -> drawn (rs := rs) f ->
     P (md - 1) sub ->
     P md (Sin (p * 2 * PI) (0.5 + f * 3.0) sub)) ->
  (forall md w l r, md <> 0 -> drawn (rs := rs) w ->
     P (md - 1) l -> P (md - 1) r ->
     P md (Mix w l r)) ->
  (forall md l r, md <> 0 -> P (md - 1) l -> P (md - 1) r ->
     P md (Product l r)) ->
  (forall md s sub, md <> 0 -> drawn (rs := rs) s -> P (md - 1) sub ->
     P md (FractalNoise (0.5 + s * 2.0) sub)) ->
  forall fuel minDepth maxDepth (g : rng rs) t g',
    Generate fuel minDepth maxDepth g = Some (t, g') -> P maxDepth t.
Proof.
  intros HX HY HC HS HM HP HF.
  induction fuel as [|fuel IH]; intros minDepth maxDepth g t g' Hg; [done|].
  rewrite Generate_S in Hg. unfold mbind at 1, Rand_bind at 1, bind at 1 in Hg.
  destruct (leaf_condition_returns minDepth maxDepth g)
    as (stop & g0 & Hc & _ & Hfalse).
  rewrite Hc in Hg. destruct stop.
  - unfold gen_leaf, mbind, Rand_bind, bind, Float64, Intn, ret in Hg.
    destruct (rand_Intn rs 3 g0) as [k g1].
    destruct k as [|[| |]|]; try (injection Hg as <- _; auto);
      destruct (rand_Float64 rs g1) as [r g2] eqn:E1;
      destruct (rand_Float64 rs g2) as [gr g3] eqn:E2;
      destruct (rand_Float64 rs g3) as [b g4] eqn:E3;
      injection Hg as <- _; apply HC;
      [exists g1; by rewrite E1|exists g2; by rewrite E2|exists g3; by rewrite E3
      |exists g1; by rewrite E1|exists g2; by rewrite E2|exists g3; by rewrite E3
      |exists g1; by rewrite E1|exists g2; by rewrite E2|exists g3; by rewrite E3].
  - specialize (Hfalse eq_refl).
    unfold mbind, Rand_bind, bind, Float64, Intn, ret in Hg.
    destruct (rand_Intn rs 4 g0) as [k g1].
    destruct k as [|[[| |]|[| |]|]|];
      repeat match goal with
             | H : context [rand_Float64 rs ?g] |- _ =>
               let E := fresh "E" in
               let f := fresh "f" in
               destruct (rand_Float64 rs g) as [f ?] eqn:E;
               assert (drawn (rs := rs) f) by (exists g; by rewrite E); clear E
             | H : context [Generate fuel ?a ?b ?g] |- _ =>
               let E := fresh "E" in
               destruct (Generate fuel a b g) as [[? ?]|] eqn:E;
               [apply IH in E|discriminate]
             end;
      injection Hg as <- _; auto.
Qed.

Lemma drawn_range (f : R) :
  RandSourceOk rs -> drawn (rs := rs) f -> (0 <= f < 1)%R.
Proof. intros Hok [g ->]. apply (Float64_range rs Hok). Qed.

Lemma Generate_params (fuel : nat) (minDepth maxDepth : Z) (g g' : rng rs)
    (t : ColorFunc) :
  RandSourceOk rs ->
  Generate fuel minDepth maxDepth g = Some (t, g') -> params_in_range t.
Proof.
  intros Hok.
  apply (Generate_tree_ind (fun _ t => params_in_range t));
    cbn [params_in_range]; try done.
  - intros _ r gr b Hr Hg Hb.
    apply (drawn_range _ Hok) in Hr, Hg, Hb. lra.
  - intros _ p f sub _ Hp Hf Hsub.
    apply (drawn_range _ Hok) in Hp, Hf. pose proof PI_RGT_0.
    split; [split; nra|]. split; [lra|done].
  - intros _ w l r _ Hw Hl Hr. apply (drawn_range _ Hok) in Hw. done.
  - intros _ s sub _ Hs Hsub. apply (drawn_range _ Hok) in Hs.
    split; [lra|done].
Qed.

Lemma Generate_no_Well (fuel : nat) (minDepth maxDepth : Z) (g g' : rng rs)
    (t : ColorFunc) :
  Generate fuel minDepth maxDepth g = Some (t, g') -> has_Well t = false.
Proof.
  apply (Generate_tree_ind (fun _ t => has_Well t = false));
    cbn [has_Well]; try done.
  - intros _ _ l r _ _ -> ->. done.
  - intros _ l r _ -> ->. done.
Qed.

Lemma Generate_node_count (fuel : nat) (minDepth maxDepth : Z)
    (g g' : rng rs) (t : ColorFunc) :
  0 <= maxDepth ->
  Generate fuel minDepth maxDepth g = Some (t, g') ->
  1 <= node_count t <= 2 ^ (maxDepth + 1) - 1.
Proof.
  intros Hmax Hg. revert Hmax.
  assert (Hpow : forall md, 0 <= md -> md <> 0 ->
            2 ^ (md + 1) = 2 * 2 ^ (md - 1 + 1) /\ 1 <= 2 ^ (md - 1 + 1)).
  { intros md H0 Hne. replace (md - 1 + 1) with md by lia.
    rewrite Z.pow_add_r by lia. split; [lia|].
    apply (Z.pow_le_mono_r 2 0 md); lia. }
  revert Hg.
  apply (Generate_tree_ind
           (fun md t => 0 <= md -> 1 <= node_count t <= 2 ^ (md + 1) - 1));
    cbn [node_count].
  1-3: intros; assert (2 ^ 1 <= 2 ^ (md + 1))
         by (apply Z.pow_le_mono_r; lia); lia.
  - intros md p f sub Hne _ _ IH H0.
    destruct (Hpow md H0 Hne). specialize (IH ltac:(lia)). lia.
  - intros md w l r Hne _ IHl IHr H0.
    destruct (Hpow md H0 Hne).
    specialize (IHl ltac:(lia)). specialize (IHr ltac:(lia)). lia.
  - intros md l r Hne IHl IHr H0.
    destruct (Hpow md H0 Hne).
    specialize (IHl ltac:(lia)). specialize (IHr ltac:(lia)). lia.
  - intros md s sub Hne _ IH H0.
    destruct (Hpow md H0 Hne). specialize (IH ltac:(lia)). lia.
Qed.

End GenerateShapes.



(** X2: [Generate] never builds a [Well] node. *)
Theorem generated_without_Well (rs : RandSource) (fuel : nat)
    (minDepth maxDepth : Z) (g g' : rng rs) (t : ColorFunc) :
  Generate fuel minDepth maxDepth g = Some (t, g') -> has_Well t = false.
Proof. apply Generate_no_Well. Qed.

Lemma generated_without_Well_witness : has_Well sample_tree = false.
Proof.
  apply (generated_without_Well (ReplaySource sample_draws) 31 10 30
           sample_draws [] sample_tree).
  apply sample_generate.
Defined.

(** X3: for [maxDepth >= 0], a tree returned by
    [Generate(minDepth, maxDepth)] has at most [2^(maxDepth+1) - 1]
    nodes. *)
Theorem generated_size (rs : RandSource) (fuel : nat)
    (minDepth maxDepth : Z) (g g' : rng rs) (t : ColorFunc) :
  (0 <= maxDepth)%Z ->
  Generate fuel minDepth maxDepth g = Some (t, g') ->
  (1 <= node_count t <= 2 ^ (maxDepth + 1) - 1)%Z.
Proof. apply Generate_node_count. Qed.

Lemma generated_size_witness :
  (1 <= node_count sample_tree <= 2 ^ (30 + 1) - 1)%Z.
Proof.
  apply (generated_size (ReplaySource sample_draws) 31 10 30
           sample_draws [] sample_tree); [lia|apply sample_generate].
Defined.

(** ** Ranges of the node outputs *)

Section EvalRanges.
Local Open Scope R_scope.

Lemma well_range (v : R) : -1 <= well v < 1.
Proof.
  unfold well. pose proof (well_denominator v) as Hd.
  assert (0 < / (1 + v ^ 2) <= 1).
  { split; [apply Rinv_0_lt_compat; lra|].
    rewrite <- Rinv_1. apply Rinv_le_contravar; lra. }
  unfold Rdiv. lra.
Qed.

Lemma smooth_range (v : R) : - (sqrt 2 / 2) <= smooth v <= sqrt 2 / 2.
Proof.
  unfold smooth. pose proof (sin2_cos2 (5 * v)) as Hsc. unfold Rsqr in Hsc.
  generalize dependent (sin (5 * v)). generalize (cos (5 * v)).
  intros c s Hsc.
  assert (H2 : 0 <= sqrt 2) by apply sqrt_pos.
  assert (Hsq : sqrt 2 * sqrt 2 = 2) by (apply sqrt_sqrt; lra).
  pose proof (Rle_0_sqr (s - c)) as Hd. unfold Rsqr in Hd.
  assert (Hle : (s + c) * (s + c) <= sqrt 2 * sqrt 2) by lra.
  generalize dependent (sqrt 2). intros q H2 Hsq Hle.
  assert (Hu : - q <= s + c <= q).
  { split.
    - destruct (Rle_dec (- q) (s + c)) as [|Hn]; [done|].
      assert (0 < - (s + c) - q) by lra.
      assert (0 < (- (s + c) - q) * (- (s + c) + q)) by
        (apply Rmult_lt_0_compat; lra).
      lra.
    - destruct (Rle_dec (s + c) q) as [|Hn]; [done|].
      assert (0 < (s + c) - q) by lra.
      assert (0 < ((s + c) - q) * ((s + c) + q)) by
        (apply Rmult_lt_0_compat; lra).
      lra. }
  lra.
Qed.

Lemma sqrt2_le : sqrt 2 / 2 <= 1.
Proof.
  assert (H2 : 0 <= sqrt 2) by apply sqrt_pos.
  assert (Hsq : sqrt 2 * sqrt 2 = 2) by (apply sqrt_sqrt; lra).
  nra.
Qed.

Lemma Eval_in_unit (t : ColorFunc) (x y : R) :
  params_in_range t -> -1 <= x <= 1 -> -1 <= y <= 1 -> in_unit (Eval t x y).
Proof.
  revert x y. induction t as [r g b| | |phase freq sub IH|l IHl r IHr
                              |w l IHl r IHr|sub IH|scale sub IH];
    intros x y Hp Hx Hy; cbn [Eval params_in_range] in *.
  - unfold in_unit. lra.
  - unfold in_unit. lra.
  - unfold in_unit. lra.
  - destruct (Eval sub x y) as [[r g] b]. unfold in_unit.
    pose proof (SIN_bound (phase + freq * r)).
    pose proof (SIN_bound (phase + freq * g)).
    pose proof (SIN_bound (phase + freq * b)). lra.
  - destruct Hp as [Hl Hr]. specialize (IHl x y Hl Hx Hy).
    specialize (IHr x y Hr Hx Hy).
    destruct (Eval l x y) as [[r1 g1] b1], (Eval r x y) as [[r2 g2] b2].
    unfold in_unit in *. repeat split; nra.
  - destruct Hp as (Hw & Hl & Hr). specialize (IHl x y Hl Hx Hy).
    specialize (IHr x y Hr Hx Hy).
    destruct (Eval l x y) as [[r1 g1] b1], (Eval r x y) as [[r2 g2] b2].
    unfold in_unit in *. repeat split; nra.
  - destruct (Eval sub x y) as [[r g] b]. unfold in_unit.
    pose proof (well_range r). pose proof (well_range g).
    pose proof (well_range b). lra.
  - destruct (Eval sub (x * scale) (y * scale)) as [[r g] b]. unfold in_unit.
    pose proof (smooth_range r). pose proof (smooth_range g).
    pose proof (smooth_range b). pose proof sqrt2_le. lra.
Qed.

End EvalRanges.






(** ** [normalize] and the conversion to bytes *)

Section ByteFacts.
Local Open Scope R_scope.

Lemma clamp_mono (a b : R) : a <= b -> clamp a <= clamp b.
Proof.
  intros Hab.
  assert (Hc : forall v, (v < -1 /\ clamp v = -1) \/ (1 < v /\ clamp v = 1)
                         \/ (-1 <= v <= 1 /\ clamp v = v)).
  { intros v. destruct (Rlt_dec v (-1)); [left|right].
    - split; [done|by apply clamp_saturates].
    - destruct (Rlt_dec 1 v); [left|right].
      + split; [done|by apply clamp_saturates].
      + split; [lra|apply clamp_id; lra]. }
  destruct (Hc a) as [[? ->]|[[? ->]|[? ->]]],
           (Hc b) as [[? ->]|[[? ->]|[? ->]]]; lra.
Qed.

End ByteFacts.

(** X7: [normalize] is idempotent and monotone, and so is the byte stored
    for a channel: a larger channel value never gives a smaller byte.  A
    channel of 1 or more gives 255, a channel of -1 or less gives 1, and 0
    gives 128. *)
Theorem channel_byte_monotone (a b : R) :
  (a <= b)%R ->
  normalize (normalize a) = normalize a
  /\ (normalize a <= normalize b)%R
  /\ (uint8 (128 + normalize a * 127) <= uint8 (128 + normalize b * 127))%Z
  /\ ((1 <= a)%R -> uint8 (128 + normalize a * 127) = 255%Z)
  /\ ((a <= -1)%R -> uint8 (128 + normalize a * 127) = 1%Z)
  /\ uint8 (128 + normalize 0 * 127) = 128%Z.
Proof.
  intros Hab. rewrite !normalize_clamp.
  pose proof (clamp_range a) as Ha. pose proof (clamp_range b) as Hb.
  pose proof (clamp_mono a b Hab) as Hm.
  rewrite !(proj1 (channel_byte_range _ (clamp_range _))).
  split; [by apply clamp_id|]. split; [done|].
  split; [apply Zfloor_le; lra|]. split; [|split].
  - intros H1. destruct (Rle_lt_or_eq_dec 1 a H1) as [Hlt| <-].
    + rewrite (proj2 (clamp_saturates a) Hlt). apply Zfloor_eq. simpl. lra.
    + rewrite clamp_id by lra. apply Zfloor_eq. simpl. lra.
  - intros H1. destruct (Rle_lt_or_eq_dec a (-1) H1) as [Hlt| ->].
    + rewrite (proj1 (clamp_saturates a) Hlt). apply Zfloor_eq. simpl. lra.
    + rewrite clamp_id by lra. apply Zfloor_eq. simpl. lra.
  - rewrite clamp_id by lra. apply Zfloor_eq. simpl. lra.
Qed.

Lemma channel_byte_monotone_witness :
  (uint8 (128 + normalize (-3) * 127) <= uint8 (128 + normalize (1 / 3) * 127))%Z.
Proof.
  assert (H : (-3 <= 1 / 3)%R) by lra.
  exact (proj1 (proj2 (proj2 (channel_byte_monotone (-3) (1 / 3) H)))).
Defined.

(** ** Bands and the buffer at the edges *)

Section RasterEdges.
Local Open Scope Z_scope.

Lemma raster_writes_nonpos (art : ColorFunc) (size numWorkers : Z) :
  size <= 0 -> raster_writes art size numWorkers = [].
Proof.
  intros Hsize. unfold raster_writes, worker_writes. cbn zeta.
  rewrite seqZ_nil by done.
  induction (seqZ 0 numWorkers) as [|w ws IH]; [done|].
  rewrite bind_cons, IH, app_nil_r.
  by induction (worker_rows _ _ _ w) as [|py rows IH'].
Qed.

Lemma rasterize_one_worker (art : ColorFunc) (size numWorkers : Z) :
  0 < numWorkers -> rasterize art size numWorkers = rasterize art size 1.
Proof.
  intros HN. unfold rasterize. destruct (Z.le_gt_cases size 0).
  - by rewrite !raster_writes_nonpos.
  - by rewrite !raster_writes_grid by lia.
Qed.

Lemma rasterize_outside (art : ColorFunc) (size numWorkers x y : Z) :
  ~ (0 <= x < size /\ 0 <= y < size) ->
  RGBAAt (rasterize art size numWorkers) x y = zeroRGBA.
Proof.
  intros Hout. unfold RGBAAt, rasterize.
  destruct (foldl_apply_write_bounds (raster_writes art size numWorkers)
              (NewRGBA size)) as [Hmin Hmax].
  rewrite (in_bounds_ext _ (NewRGBA size) _ _ Hmin Hmax).
  destruct (in_bounds (NewRGBA size) x y) eqn:Hin; [|done].
  unfold in_bounds, NewRGBA in Hin. cbn [Rect_Min Rect_Max] in Hin.
  rewrite !andb_true_iff, !Z.leb_le, !Z.ltb_lt in Hin.
  assert (Hneg : size <= 0) by lia.
  rewrite raster_writes_nonpos by done. done.
Qed.

End RasterEdges.

(** X8: for [size >= 0] and [numWorkers >= 1], every worker before the
    last handles exactly [size / numWorkers] rows and the last one handles
    [size / numWorkers + size mod numWorkers] rows; in particular, when
    [size < numWorkers] only the last worker has any row, and it has all of
    them. *)
Theorem band_sizes (size numWorkers worker : Z) :
  (0 <= size)%Z -> (0 < numWorkers)%Z -> (0 <= worker < numWorkers)%Z ->
  Z.of_nat (length (worker_rows size numWorkers (Z.quot size numWorkers)
                                worker))
  = (if (worker =? numWorkers - 1)%Z
     then size / numWorkers + size mod numWorkers
     else size / numWorkers)%Z
  /\ ((size < numWorkers)%Z ->
      worker_rows size numWorkers (Z.quot size numWorkers) worker
      = if (worker =? numWorkers - 1)%Z then seqZ 0 size else []).
Proof.
  intros Hsize HN Hw. rewrite Z.quot_div_nonneg by lia.
  pose proof (Z.div_mod size numWorkers ltac:(lia)) as Hdm.
  pose proof (Z.mod_pos_bound size numWorkers HN) as Hmod.
  assert (Hq : (0 <= size / numWorkers)%Z) by (apply Z.div_pos; lia).
  unfold worker_rows. rewrite length_seqZ. split.
  - destruct (Z.eqb_spec worker (numWorkers - 1)) as [->|Hne]; nia.
  - intros Hlt. rewrite Z.div_small by lia.
    destruct (Z.eqb_spec worker (numWorkers - 1)).
    + f_equal; lia.
    + apply seqZ_nil. lia.
Qed.

Lemma band_sizes_witness :
  Z.of_nat (length (worker_rows 10 4 (Z.quot 10 4) 3))
  = (if (3 =? 4 - 1)%Z then 10 / 4 + 10 mod 4 else 10 / 4)%Z.
Proof.
  exact (proj1 (band_sizes 10 4 3 ltac:(lia) ltac:(lia) ltac:(lia))).
Defined.

(** X9: outside the square [[0, size) x [0, size)] the rasterized image
    reads as the zero colour (transparent black); for [size <= 0] that is
    every position, since no pixel is written at all. *)
Theorem outside_reads_zero (art : ColorFunc) (size numWorkers x y : Z) :
  ~ ((0 <= x < size)%Z /\ (0 <= y < size)%Z) ->
  RGBAAt (rasterize art size numWorkers) x y = zeroRGBA
  /\ ((size <= 0)%Z -> raster_writes art size numWorkers = []).
Proof.
  intros Hout. split; [by apply rasterize_outside|].
  apply raster_writes_nonpos.
Qed.

Lemma outside_reads_zero_witness :
  RGBAAt (rasterize VariableX 4 2) 4 0 = zeroRGBA.
Proof.
  assert (H : ~ ((0 <= 4 < 4)%Z /\ (0 <= 0 < 4)%Z)) by lia.
  exact (proj1 (outside_reads_zero VariableX 4 2 4 0 H)).
Defined.

(** ** [CreateImage] and the number of workers *)

Section WorkersIrrelevant.
Context {rs : RandSource}.

Lemma attempts_loop_workers (n : nat) (seed : Hash.gostring)
    (size numWorkers : Z) (st : LoopState) (g : rng rs) :
  (0 < numWorkers)%Z ->
  attempts_loop n seed size numWorkers st g = attempts_loop n seed size 1 st g.
Proof.
  intros HN. revert st g. induction n as [|n IH]; intros st g; [done|].
  rewrite !attempts_loop_S. unfold mbind, Rand_bind, bind.
  destruct (Generate 31 10 30 g) as [[art g1]|]; [|done].
  cbv zeta. rewrite (rasterize_one_worker art size numWorkers HN).
  destruct (Rgtb _ _); [done|]. apply IH.
Qed.

End WorkersIrrelevant.

(** X10: the result of [CreateImage] (image, metric, trees and printed
    lines) does not depend on the number of workers. *)
Theorem CreateImage_workers_irrelevant (rs : RandSource)
    (seed : Hash.gostring) (size n1 n2 : Z) :
  (0 < n1)%Z -> (0 < n2)%Z ->
  CreateImage rs seed size n1 = CreateImage rs seed size n2.
Proof.
  intros H1 H2. unfold CreateImage.
  by rewrite (attempts_loop_workers 3 seed size n1),
             (attempts_loop_workers 3 seed size n2).
Qed.

Lemma CreateImage_workers_irrelevant_witness :
  CreateImage (ReplaySource sample_draws) [] 2 8
  = CreateImage (ReplaySource sample_draws) [] 2 1.
Proof.
  apply (CreateImage_workers_irrelevant (ReplaySource sample_draws) [] 2 8 1);
    lia.
Defined.

(** ** The metric as a variance *)

Section VarianceFacts.
Local Open Scope R_scope.

Lemma metric_sqrt (im : Image) (size : Z) :
  calculateColorVariance im size
  = sqrt (channel_variance cR im size + channel_variance cG im size
          + channel_variance cB im size).
Proof.
  unfold calculateColorVariance, channel_variance, mean, pixels.
  rewrite variance_loops_grid.
  destruct (accumulate_sums im (grid size) (mkSums 0 0 0 0 0 0))
    as (-> & -> & -> & -> & -> & ->).
  cbn [rTotal gTotal bTotal rSq gSq bSq]. by rewrite !Rplus_0_l.
Qed.

(** Sum of squared deviations from any value [m]. *)
Lemma sum_sq_dev (m : R) (xs : list R) :
  sumR ((fun x => (x - m) * (x - m)) <$> xs)
  = sumR ((fun x => x * x) <$> xs) - 2 * m * sumR xs
    + INR (length xs) * (m * m).
Proof.
  induction xs as [|x xs IH]; [cbn; lra|].
  rewrite !fmap_cons, !sumR_cons, IH.
  change (length (x :: xs)) with (S (length xs)). rewrite S_INR. lra.
Qed.

Lemma sumR_nonneg (xs : list R) : Forall (fun x => 0 <= x) xs -> 0 <= sumR xs.
Proof.
  induction 1 as [|x xs Hx _ IH]; [cbn; lra|]. rewrite sumR_cons. lra.
Qed.

Lemma sumR_zero (xs : list R) :
  Forall (fun x => 0 <= x) xs -> sumR xs = 0 -> Forall (fun x => x = 0) xs.
Proof.
  induction 1 as [|x xs Hx Hxs IH]; intros Hs; [constructor|].
  rewrite sumR_cons in Hs. pose proof (sumR_nonneg xs Hxs).
  constructor; [lra|]. apply IH. lra.
Qed.

Lemma sq_dev_nonneg (m : R) (xs : list R) :
  Forall (fun x => 0 <= x) ((fun x => (x - m) * (x - m)) <$> xs).
Proof.
  induction xs as [|x xs IH]; [constructor|].
  rewrite fmap_cons. constructor; [|done]. apply (Rle_0_sqr (x - m)).
Qed.

(** A channel's variance over a non-empty list of pixels, as the mean of
    the squared deviations from the mean. *)
Lemma variance_as_deviation (xs : list R) (n : R) :
  n = INR (length xs) -> 0 < n ->
  sumR ((fun x => x * x) <$> xs) / n - sumR xs / n * (sumR xs / n)
  = sumR ((fun x => (x - sumR xs / n) * (x - sumR xs / n)) <$> xs) / n.
Proof.
  intros Hn Hpos. rewrite sum_sq_dev, <- Hn. field. lra.
Qed.

Lemma channel_values (ch : RGBA -> Z) (im : Image) (size : Z) :
  (0 < size)%Z ->
  let xs := (fun c => IZR (ch c)) <$> pixels im size in
  let n := IZR (size * size) in
  n = INR (length xs) /\ 0 < n
  /\ channel_variance ch im size
     = sumR ((fun x => (x - sumR xs / n) * (x - sumR xs / n)) <$> xs) / n.
Proof.
  intros Hsize xs n.
  assert (Hn : n = INR (length xs)).
  { unfold xs, n, pixels. rewrite !length_fmap, INR_IZR_INZ.
    by rewrite length_grid by lia. }
  assert (Hpos : 0 < n) by (unfold n; apply IZR_lt; nia).
  split; [done|]. split; [done|].
  unfold channel_variance, mean. fold n.
  rewrite <- (variance_as_deviation xs n Hn Hpos). unfold xs.
  by rewrite <- !list_fmap_compose.
Qed.

Lemma channel_variance_nonneg (ch : RGBA -> Z) (im : Image) (size : Z) :
  (0 < size)%Z -> 0 <= channel_variance ch im size.
Proof.
  intros Hsize. destruct (channel_values ch im size Hsize) as (_ & Hpos & ->).
  apply Rmult_le_pos; [|left; by apply Rinv_0_lt_compat].
  apply sumR_nonneg, sq_dev_nonneg.
Qed.

Lemma channel_variance_zero (ch : RGBA -> Z) (im : Image) (size : Z) :
  (0 < size)%Z ->
  channel_variance ch im size = 0 <->
  (forall c1 c2, c1 ∈ pixels im size -> c2 ∈ pixels im size -> ch c1 = ch c2).
Proof.
  intros Hsize. destruct (channel_values ch im size Hsize) as (Hn & Hpos & ->).
  set (xs := (fun c => IZR (ch c)) <$> pixels im size) in *.
  set (n := IZR (size * size)) in *. set (mu := sumR xs / n).
  assert (Hinv : 0 < / n) by (by apply Rinv_0_lt_compat).
  split.
  - intros Hz.
    assert (Hs : sumR ((fun x => (x - mu) * (x - mu)) <$> xs) = 0).
    { unfold Rdiv in Hz. apply Rmult_integral in Hz as [Hz|Hz]; [done|lra]. }
    apply sumR_zero in Hs; [|apply sq_dev_nonneg].
    assert (Hall : forall c, c ∈ pixels im size -> IZR (ch c) = mu).
    { intros c Hc. rewrite Forall_fmap, Forall_forall in Hs.
      assert (Hx : IZR (ch c) ∈ xs).
      { unfold xs. apply list_elem_of_fmap. by exists c. }
      specialize (Hs _ Hx). cbn in Hs. nra. }
    intros c1 c2 H1 H2. apply eq_IZR. by rewrite (Hall c1), (Hall c2).
  - intros Heq.
    destruct (pixels im size) as [|c0 cs] eqn:Hp.
    { unfold xs in Hn. cbn in Hn. lra. }
    assert (Hx : Forall (fun x => x = IZR (ch c0)) xs).
    { unfold xs. apply Forall_fmap, Forall_forall. intros c Hc. cbn.
      f_equal. apply Heq; [done|]. apply list_elem_of_here. }
    assert (Hsum : forall l, Forall (fun x => x = IZR (ch c0)) l ->
              sumR l = INR (length l) * IZR (ch c0)).
    { induction 1 as [|x l -> _ IH]; [cbn; lra|].
      rewrite sumR_cons, IH. change (length (IZR (ch c0) :: l)) with (S (length l)).
      rewrite S_INR. lra. }
    assert (Hmu : mu = IZR (ch c0)).
    { unfold mu. rewrite (Hsum xs Hx), <- Hn. field. lra. }
    assert (Hdev : Forall (fun x => x = 0)
                     ((fun x => (x - mu) * (x - mu)) <$> xs)).
    { apply Forall_fmap. eapply Forall_impl; [exact Hx|].
      intros x ->. cbn. rewrite Hmu. ring. }
    assert (Hz : forall l, Forall (fun x => x = 0) l -> sumR l = 0).
    { induction 1 as [|x l -> _ IH]; [done|]. rewrite sumR_cons, IH. lra. }
    rewrite (Hz _ Hdev). unfold Rdiv. ring.
Qed.

End VarianceFacts.

Lemma metric_zero_iff (im : Image) (size : Z) :
  (0 < size)%Z ->
  calculateColorVariance im size = 0%R <->
  forall c1 c2, c1 ∈ pixels im size -> c2 ∈ pixels im size ->
    cR c1 = cR c2 /\ cG c1 = cG c2 /\ cB c1 = cB c2.
Proof.
  intros Hsize.
  pose proof (channel_variance_nonneg cR im size Hsize) as HR.
  pose proof (channel_variance_nonneg cG im size Hsize) as HG.
  pose proof (channel_variance_nonneg cB im size Hsize) as HB.
  rewrite metric_sqrt. split.
  - intros Hz. apply sqrt_eq_0 in Hz; [|lra].
    assert (H1 : channel_variance cR im size = 0%R) by lra.
    assert (H2 : channel_variance cG im size = 0%R) by lra.
    assert (H3 : channel_variance cB im size = 0%R) by lra.
    pose proof (proj1 (channel_variance_zero cR im size Hsize) H1).
    pose proof (proj1 (channel_variance_zero cG im size Hsize) H2).
    pose proof (proj1 (channel_variance_zero cB im size Hsize) H3).
    intros c1 c2 Hc1 Hc2. auto.
  - intros Hall.
    assert (H1 : channel_variance cR im size = 0%R)
      by (apply channel_variance_zero; [done|intros; by apply Hall]).
    assert (H2 : channel_variance cG im size = 0%R)
      by (apply channel_variance_zero; [done|intros; by apply Hall]).
    assert (H3 : channel_variance cB im size = 0%R)
      by (apply channel_variance_zero; [done|intros; by apply Hall]).
    rewrite H1, H2, H3, !Rplus_0_l. apply sqrt_0.
Qed.

(** X11: for [size >= 1] each channel's mean of squares minus squared
    mean is non-negative, so the square root is taken of a non-negative
    number; and the metric is 0 exactly when all [size * size] pixels have
    the same red, green and blue bytes. *)
Theorem metric_zero_iff_uniform (im : Image) (size : Z) :
  (0 < size)%Z ->
  (0 <= channel_variance cR im size)%R
  /\ (0 <= channel_variance cG im size)%R
  /\ (0 <= channel_variance cB im size)%R
  /\ (calculateColorVariance im size = 0%R <->
      forall c1 c2, c1 ∈ pixels im size -> c2 ∈ pixels im size ->
        cR c1 = cR c2 /\ cG c1 = cG c2 /\ cB c1 = cB c2).
Proof.
  intros Hsize.
  split; [by apply channel_variance_nonneg|].
  split; [by apply channel_variance_nonneg|].
  split; [by apply channel_variance_nonneg|by apply metric_zero_iff].
Qed.

Lemma metric_zero_iff_uniform_witness :
  (0 <= channel_variance cR (rasterize VariableX 3 1) 3)%R.
Proof.
  exact (proj1 (metric_zero_iff_uniform (rasterize VariableX 3 1) 3
                  ltac:(lia))).
Defined.

Lemma metric_size_one (im : Image) : calculateColorVariance im 1 = 0%R.
Proof.
  apply (metric_zero_iff im 1 ltac:(lia)).
  intros c1 c2 H1 H2. change (pixels im 1) with [RGBAAt im 0 0] in H1, H2.
  apply list_elem_of_singleton in H1, H2. by subst.
Qed.

(** X12: at size 1 the image is a single pixel, its metric is 0, and no
    tree can be accepted: [CreateImage] always builds three trees, returns
    the image of the third with metric 0, and prints the warning. *)
Theorem size_one_exhausts_attempts (rs : RandSource) (seed : Hash.gostring)
    (numWorkers : Z) :
  (0 < numWorkers)%Z ->
  exists st,
    CreateImage rs seed 1 numWorkers = Some st
    /\ length (trees st) = 3%nat
    /\ variance st = 0%R
    /\ LowVarianceWarning ∈ printed st.
Proof.
  intros _.
  destruct (CreateImage_returns rs seed 1 numWorkers)
    as (st & rej & t & Hst & Ht & _ & Hlen & Hacc & Hvar & _ & Hw).
  assert (Hm : metric 1 numWorkers t = 0%R) by apply metric_size_one.
  exists st. split; [done|]. rewrite Hvar, Hm in *.
  split; [|split; [done|apply Hw; lra]].
  rewrite Ht, length_app. cbn [length].
  destruct (decide (length rej < 2)%nat) as [Hlt|]; [|lia].
  specialize (Hacc Hlt). lra.
Qed.

Lemma size_one_exhausts_attempts_witness :
  exists st,
    CreateImage HalfSource [Byte.x61] 1 4 = Some st
    /\ length (trees st) = 3%nat
    /\ variance st = 0%R
    /\ LowVarianceWarning ∈ printed st.
Proof.
  apply (size_one_exhausts_attempts HalfSource [Byte.x61] 4). lia.
Defined.

(** ** What [CreateImage] prints and which trees it tries *)

Section AttemptFacts.
Context {rs : RandSource}.

Lemma attempts_loop_lines (n : nat) (seed : Hash.gostring)
    (size numWorkers : Z) (st : LoopState) (g : rng rs) :
  match attempts_loop n seed size numWorkers st g with
  | Some (st', _) =>
    exists new,
      trees st' = trees st ++ new
      /\ printed st'
         = printed st ++ (new ≫= attempt_lines seed size numWorkers)
      /\ forall P : ColorFunc -> Prop,
           (forall (g0 g1 : rng rs) t,
              Generate 31 10 30 g0 = Some (t, g1) -> P t) ->
           Forall P new
  | None => True
  end.
Proof.
  revert st g. induction n as [|n IH]; intros st g.
  { cbn [attempts_loop]. unfold ret. exists []. by rewrite !app_nil_r. }
  rewrite attempts_loop_S. unfold mbind at 1, Rand_bind at 1, bind at 1.
  destruct (Generate_returns 31 10 30 g ltac:(lia) ltac:(vm_compute; lia))
    as (art & g1 & Hg & _).
  rewrite Hg. cbv zeta. fold (metric size numWorkers art).
  destruct (Rgtb (metric size numWorkers art) 30.0) eqn:Hgt.
  - unfold ret. exists [art]. cbn [trees printed].
    split; [done|]. split.
    + rewrite bind_singleton. unfold attempt_lines. by rewrite Hgt.
    + intros P HP. constructor; [by eapply HP|constructor].
  - match goal with
    | |- context [attempts_loop n _ _ _ ?s g1] =>
      specialize (IH s g1); destruct (attempts_loop n seed size numWorkers s g1)
        as [[st' g']|]; [|done]
    end.
    destruct IH as (new & Ht & Hp & HF). cbn [trees printed] in Ht, Hp.
    exists (art :: new). split; [by rewrite Ht, <- app_assoc|]. split.
    + rewrite Hp, bind_cons. unfold attempt_lines at 2. rewrite Hgt.
      by rewrite <- !app_assoc.
    + intros P HP. constructor; [by eapply HP|by apply HF].
Qed.

Lemma CreateImage_lines (seed : Hash.gostring) (size numWorkers : Z)
    (st : LoopState) :
  CreateImage rs seed size numWorkers = Some st ->
  printed st
  = (trees st ≫= attempt_lines seed size numWorkers)
    ++ (if Rleb (variance st) 50.0 then [LowVarianceWarning] else [])
  /\ forall P : ColorFunc -> Prop,
       (forall (g0 g1 : rng rs) t,
          Generate 31 10 30 g0 = Some (t, g1) -> P t) ->
       Forall P (trees st).
Proof.
  unfold CreateImage.
  pose proof (attempts_loop_lines 3 seed size numWorkers
    {| img := None; variance := 0; printed := []; trees := [] |}
    (rand_Seed rs (Hash.hash seed))) as Hl.
  destruct (attempts_loop 3 _ _ _ _ _) as [[st0 g0]|]; [|done].
  destruct Hl as (new & Ht & Hp & HF).
  cbn [trees printed app] in Ht, Hp. intros Hst. injection Hst as <-.
  destruct (Rleb (variance st0) 50.0) eqn:Hle; cbn [trees printed variance];
    rewrite ?Hle, Ht; (split; [by rewrite Hp, ?app_nil_r|done]).
Qed.

End AttemptFacts.

(** X13: the lines [CreateImage] prints are, for each tree tried in order,
    the tree's dump followed by the retry line when its metric is at most
    30 (also after the third attempt, when no retry follows), and at the
    end the warning when the final metric is at most 50. *)
Theorem printed_lines (rs : RandSource) (seed : Hash.gostring)
    (size numWorkers : Z) (st : LoopState) :
  CreateImage rs seed size numWorkers = Some st ->
  printed st
  = (trees st ≫= attempt_lines seed size numWorkers)
    ++ (if Rleb (variance st) 50.0 then [LowVarianceWarning] else []).
Proof.
  intros Hst.
  exact (proj1 (CreateImage_lines (rs := rs) seed size numWorkers st Hst)).
Qed.

Lemma printed_lines_witness :
  [ExpressionTree [] sample_tree; LowVarianceWarning]
  = ([sample_tree] ≫= attempt_lines [] 2 1)
    ++ (if Rleb 31.5 50.0 then [LowVarianceWarning] else []).
Proof.
  exact (printed_lines (ReplaySource sample_draws) [] 2 1 _ (sample_run [])).
Defined.



(** ** [polar] *)

Section PolarFacts.
Local Open Scope R_scope.

Lemma radius_factor (x y : R) :
  x <> 0 ->
  sqrt (x * x + y * y) = Rabs x * sqrt (1 + (y / x)²)
  /\ 0 < sqrt (1 + (y / x)²).
Proof.
  intros Hx. assert (Hpos : 0 < 1 + (y / x)²).
  { pose proof (Rle_0_sqr (y / x)). lra. }
  split; [|by apply sqrt_lt_R0].
  replace (x * x + y * y) with (x * x * (1 + (y / x)²))
    by (unfold Rsqr; field; done).
  rewrite sqrt_mult by (try lra; apply (Rle_0_sqr x)).
  f_equal. apply (sqrt_Rsqr_abs x).
Qed.

Lemma polar_right (x y : R) :
  0 < x ->
  sqrt (x * x + y * y) * cos (atan (y / x)) = x
  /\ sqrt (x * x + y * y) * sin (atan (y / x)) = y.
Proof.
  intros Hx. destruct (radius_factor x y ltac:(lra)) as [-> Hs].
  rewrite Rabs_right by lra. rewrite cos_atan, sin_atan.
  split; field; lra.
Qed.

Lemma polar_left (x y : R) :
  x < 0 ->
  sqrt (x * x + y * y) * - cos (atan (y / x)) = x
  /\ sqrt (x * x + y * y) * - sin (atan (y / x)) = y.
Proof.
  intros Hx. destruct (radius_factor x y ltac:(lra)) as [-> Hs].
  rewrite Rabs_left by lra. rewrite cos_atan, sin_atan.
  split; field; lra.
Qed.

Lemma polar_spec (x y : R) :
  let '(r, theta) := polar x y in
  0 <= r
  /\ r * r = x * x + y * y
  /\ r * cos theta = x
  /\ r * sin theta = y
  /\ - PI < theta <= PI
  /\ (r = 0 <-> x = 0 /\ y = 0).
Proof.
  unfold polar. pose proof PI_RGT_0 as Hpi.
  assert (Hnn : 0 <= x * x + y * y) by nra.
  split; [apply sqrt_pos|]. split; [by apply sqrt_sqrt|].
  assert (Hzero : sqrt (x * x + y * y) = 0 <-> x = 0 /\ y = 0).
  { split.
    - intros H0. apply sqrt_eq_0 in H0; [|done]. split; nra.
    - intros [-> ->]. rewrite Rmult_0_l, Rplus_0_l. apply sqrt_0. }
  unfold Atan2. destruct (Rlt_dec 0 x) as [Hx|Hx].
  { destruct (polar_right x y Hx) as [Hc Hs]. pose proof (atan_bound (y / x)).
    repeat split; try tauto; lra. }
  destruct (Rlt_dec x 0) as [Hx'|Hx'].
  { destruct (polar_left x y Hx') as [Hc Hs].
    pose proof (atan_bound (y / x)) as Hb.
    destruct (Rle_dec 0 y) as [Hy|Hy].
    - rewrite neg_cos, neg_sin.
      assert (Ht : atan (y / x) <= 0).
      { destruct Hy as [Hy| <-].
        - left. rewrite <- atan_0. apply atan_increasing.
          assert (0 < / - x) by (apply Rinv_0_lt_compat; lra).
          replace (y / x) with (- (y * / - x)) by (field; lra). nra.
        - unfold Rdiv. rewrite Rmult_0_l, atan_0. lra. }
      repeat split; try tauto; lra.
    - assert (Ht : 0 < atan (y / x)).
      { rewrite <- atan_0. apply atan_increasing.
        assert (0 < / - x) by (apply Rinv_0_lt_compat; lra).
        replace (y / x) with (- y * / - x) by (field; lra). nra. }
      rewrite cos_minus, sin_minus, cos_PI, sin_PI.
      replace (cos (atan (y / x)) * -1 + sin (atan (y / x)) * 0)
        with (- cos (atan (y / x))) by ring.
      replace (sin (atan (y / x)) * -1 - cos (atan (y / x)) * 0)
        with (- sin (atan (y / x))) by ring.
      repeat split; try tauto; lra. }
  assert (Hx0 : x = 0) by lra. subst x.
  rewrite Rmult_0_l, Rplus_0_l in *.
  destruct (Rlt_dec 0 y) as [Hy|Hy].
  { rewrite cos_PI2, sin_PI2, sqrt_square by lra.
    repeat split; try tauto; lra. }
  destruct (Rlt_dec y 0) as [Hy'|Hy'].
  { rewrite cos_neg, sin_neg, cos_PI2, sin_PI2.
    replace (y * y) with (- y * - y) in * by ring.
    rewrite sqrt_square by lra. repeat split; try tauto; lra. }
  assert (Hy0 : y = 0) by lra. subst y.
  rewrite Rmult_0_l, sqrt_0, cos_0, sin_0.
  repeat split; try tauto; lra.
Qed.

End PolarFacts.


(** ** The handler [generateImage] *)

Section HandlerFacts.
Variable Atoi : Hash.gostring -> option Z.
Local Open Scope Z_scope.

Lemma request_size_cases (sizeParam : Hash.gostring) :
  0 < request_size Atoi sizeParam
  /\ (forall s, Atoi sizeParam = Some s -> 0 < s ->
        request_size Atoi sizeParam = s)
  /\ (forall s, Atoi sizeParam = Some s -> s <= 0 ->
        request_size Atoi sizeParam = 512)
  /\ (Atoi sizeParam = None -> request_size Atoi sizeParam = 512).
Proof.
  unfold request_size. destruct (Atoi sizeParam) as [s|].
  - destruct (Z.ltb_spec 0 s); repeat split; try done; try lia;
      intros s' [= <-]; lia.
  - repeat split; try done; lia.
Qed.

Lemma rasterize_bounds (art : ColorFunc) (size numWorkers : Z) :
  0 < size ->
  Rect_Min (rasterize art size numWorkers) = 0
  /\ Rect_Max (rasterize art size numWorkers) = size.
Proof.
  intros Hsize. unfold rasterize.
  destruct (foldl_apply_write_bounds (raster_writes art size numWorkers)
              (NewRGBA size)) as [-> ->].
  cbn [NewRGBA Rect_Min Rect_Max]. lia.
Qed.

Lemma generateImage_answers (rs : RandSource) (numWorkers : Z)
    (seed sizeParam : Hash.gostring) :
  seed <> [] -> 0 < numWorkers ->
  let size := request_size Atoi sizeParam in
  exists st im,
    CreateImage rs seed size numWorkers = Some st
    /\ generateImage Atoi rs numWorkers seed sizeParam
       = Some (Png (Some im), printed st)
    /\ Rect_Min im = 0 /\ Rect_Max im = size
    /\ forall px py, 0 <= px < size -> 0 <= py < size ->
         1 <= cR (RGBAAt im px py) <= 255
         /\ 1 <= cG (RGBAAt im px py) <= 255
         /\ 1 <= cB (RGBAAt im px py) <= 255
         /\ cA (RGBAAt im px py) = 255.
Proof.
  intros Hseed HN size.
  assert (Hsize : 0 < size) by apply request_size_cases.
  destruct (CreateImage_returns rs seed size numWorkers)
    as (st & rej & t & Hst & _ & _ & _ & _ & _ & Himg & _).
  exists st, (rasterize t size numWorkers). split; [done|].
  split.
  { unfold generateImage. destruct seed as [|b seed']; [done|].
    fold size. by rewrite Hst, Himg. }
  destruct (rasterize_bounds t size numWorkers Hsize) as [-> ->].
  split; [done|]. split; [done|]. intros px py Hpx Hpy.
  rewrite rasterize_RGBAAt, pixel_color_bytes by lia.
  destruct (Eval t _ _) as [[r g] b]. cbn [cR cG cB cA].
  pose proof (proj2 (channel_byte_range _ (clamp_range r))).
  pose proof (proj2 (channel_byte_range _ (clamp_range g))).
  pose proof (proj2 (channel_byte_range _ (clamp_range b))).
  done.
Qed.

End HandlerFacts.

(** The decimal parser on sample parameters: a plain number, a sign, and
    the inputs that make the handler fall back to 512. *)
Example request_size_examples :
  request_size decimal_Atoi [Byte.x36; Byte.x34] = 64%Z
  /\ request_size decimal_Atoi [Byte.x2b; Byte.x38] = 8%Z
  /\ request_size decimal_Atoi [] = 512%Z
  /\ request_size decimal_Atoi [Byte.x30] = 512%Z
  /\ request_size decimal_Atoi [Byte.x2d; Byte.x33] = 512%Z
  /\ request_size decimal_Atoi [Byte.x36; Byte.x34; Byte.x70; Byte.x78]
     = 512%Z
  /\ request_size decimal_Atoi [Byte.x2d] = 512%Z.
Proof. repeat split; reflexivity. Qed.

(** X16: the size the handler passes to [CreateImage] is always positive:
    it is the parsed parameter when [strconv.Atoi] succeeds with a positive
    value, and 512 when parsing fails or gives zero or a negative value. *)
Theorem request_size_positive (Atoi : Hash.gostring -> option Z)
    (sizeParam : Hash.gostring) :
  (0 < request_size Atoi sizeParam)%Z
  /\ (forall s, Atoi sizeParam = Some s -> (0 < s)%Z ->
        request_size Atoi sizeParam = s)
  /\ (forall s, Atoi sizeParam = Some s -> (s <= 0)%Z ->
        request_size Atoi sizeParam = 512%Z)
  /\ (Atoi sizeParam = None -> request_size Atoi sizeParam = 512%Z).
Proof. apply request_size_cases. Qed.

Lemma request_size_positive_witness :
  request_size decimal_Atoi [Byte.x2d; Byte.x33] = 512%Z.
Proof.
  apply (proj1 (proj2 (proj2 (request_size_positive decimal_Atoi
                                [Byte.x2d; Byte.x33]))) (-3)%Z);
    [reflexivity|lia].
Defined.



(** ** Seeds with the same code points *)

Section SameCodePoints.
Import Hash.

Lemma hash_of_runes (seed : gostring) :
  hash seed = fold_left hash_step (runes seed) (uint32 2166136261).
Proof. unfold hash, runes, range_string. apply range_loop_fold. Qed.

End SameCodePoints.

(** X18: [hash] depends on the seed string only through the code points
    the range loop decodes from it, so two seed strings that decode alike
    (such as a lone invalid byte and the encoding of U+FFFD) have the same
    hash and give the same image, metric and trees. *)
Theorem same_code_points_same_image (rs : RandSource)
    (seed1 seed2 : Hash.gostring) (size numWorkers : Z) :
  Hash.runes seed1 = Hash.runes seed2 ->
  Hash.hash seed1 = Hash.hash seed2
  /\ outcome <$> CreateImage rs seed1 size numWorkers
     = outcome <$> CreateImage rs seed2 size numWorkers.
Proof.
  intros Hr.
  assert (Hh : Hash.hash seed1 = Hash.hash seed2)
    by (by rewrite !hash_of_runes, Hr).
  split; [done|]. by apply CreateImage_same_hash.
Qed.

Lemma same_code_points_same_image_witness :
  Hash.hash [Byte.xff] = Hash.hash [Byte.xef; Byte.xbf; Byte.xbd]
  /\ outcome <$> CreateImage HalfSource [Byte.xff] 8 2
     = outcome <$> CreateImage HalfSource [Byte.xef; Byte.xbf; Byte.xbd] 8 2.
Proof.
  apply (same_code_points_same_image HalfSource [Byte.xff]
           [Byte.xef; Byte.xbf; Byte.xbd] 8 2).
  reflexivity.
Defined.

(** ** An upper bound on the metric *)

Section MetricBound.
Local Open Scope R_scope.

Lemma sum_range_product (xs : list R) :
  sumR ((fun x => (x - 1) * (255 - x)) <$> xs)
  = 256 * sumR xs - 255 * INR (length xs) - sumR ((fun x => x * x) <$> xs).
Proof.
  induction xs as [|x xs IH]; [cbn; lra|].
  rewrite !fmap_cons, !sumR_cons, IH.
  change (length (x :: xs)) with (S (length xs)). rewrite S_INR. lra.
Qed.

(** Variance of values between 1 and 255 is at most [127^2]. *)
Lemma variance_le (xs : list R) (n : R) :
  n = INR (length xs) -> 0 < n ->
  Forall (fun x => 1 <= x <= 255) xs ->
  sumR ((fun x => x * x) <$> xs) / n - sumR xs / n * (sumR xs / n)
  <= 127 * 127.
Proof.
  intros Hn Hpos Hxs.
  assert (Hp : 0 <= sumR ((fun x => (x - 1) * (255 - x)) <$> xs)).
  { apply sumR_nonneg. clear Hn.
    induction Hxs as [|x l Hx _ IH]; [constructor|].
    rewrite fmap_cons. constructor; [nra|done]. }
  rewrite sum_range_product, <- Hn in Hp.
  set (S := sumR xs) in *. set (Q := sumR ((fun x => x * x) <$> xs)) in *.
  assert (Hinv : 0 < / n) by (by apply Rinv_0_lt_compat).
  assert (HQ : Q / n <= 256 * (S / n) - 255).
  { apply Rmult_le_reg_r with n; [done|]. unfold Rdiv.
    replace (Q * / n * n) with Q by (field; lra).
    replace ((256 * (S * / n) - 255) * n) with (256 * S - 255 * n)
      by (field; lra).
    lra. }
  generalize dependent (S / n). generalize dependent (Q / n).
  intros q mu HQ. pose proof (Rle_0_sqr (mu - 128)) as Hsq.
  unfold Rsqr in Hsq. lra.
Qed.

Lemma channel_variance_le (ch : RGBA -> Z) (im : Image) (size : Z) :
  (0 < size)%Z ->
  (forall c, c ∈ pixels im size -> (1 <= ch c <= 255)%Z) ->
  channel_variance ch im size <= 127 * 127.
Proof.
  intros Hsize Hb.
  destruct (channel_values ch im size Hsize) as (Hn & Hpos & _).
  unfold channel_variance, mean.
  set (xs := (fun c => IZR (ch c)) <$> pixels im size) in *.
  replace ((fun c => IZR (ch c) * IZR (ch c)) <$> pixels im size)
    with ((fun x => x * x) <$> xs)
    by (unfold xs; by rewrite <- list_fmap_compose).
  apply variance_le; [done|done|].
  unfold xs. apply Forall_fmap, Forall_forall. intros c Hc. cbn.
  destruct (Hb c Hc) as [H1 H2]. apply IZR_le in H1, H2. lra.
Qed.

Lemma rasterize_pixels_bytes (art : ColorFunc) (size numWorkers : Z)
    (c : RGBA) :
  (0 < size)%Z -> (0 < numWorkers)%Z ->
  c ∈ pixels (rasterize art size numWorkers) size ->
  (1 <= cR c <= 255)%Z /\ (1 <= cG c <= 255)%Z /\ (1 <= cB c <= 255)%Z.
Proof.
  intros Hsize HN Hc. unfold pixels in Hc.
  apply list_elem_of_fmap in Hc as ([px py] & -> & Hp).
  apply elem_of_grid in Hp. cbn [fst snd].
  rewrite rasterize_RGBAAt, pixel_color_bytes by lia.
  destruct (Eval art _ _) as [[r g] b]. cbn [cR cG cB].
  pose proof (proj2 (channel_byte_range _ (clamp_range r))).
  pose proof (proj2 (channel_byte_range _ (clamp_range g))).
  pose proof (proj2 (channel_byte_range _ (clamp_range b))).
  done.
Qed.

Lemma metric_bound (art : ColorFunc) (size numWorkers : Z) :
  (0 < size)%Z -> (0 < numWorkers)%Z ->
  0 <= metric size numWorkers art < 220.
Proof.
  intros Hsize HN. unfold metric. rewrite metric_sqrt.
  set (im := rasterize art size numWorkers).
  pose proof (channel_variance_nonneg cR im size Hsize).
  pose proof (channel_variance_nonneg cG im size Hsize).
  pose proof (channel_variance_nonneg cB im size Hsize).
  assert (HR : channel_variance cR im size <= 127 * 127).
  { apply channel_variance_le; [done|]. intros c Hc.
    by apply (rasterize_pixels_bytes art size numWorkers c). }
  assert (HG : channel_variance cG im size <= 127 * 127).
  { apply channel_variance_le; [done|]. intros c Hc.
    by apply (rasterize_pixels_bytes art size numWorkers c). }
  assert (HB : channel_variance cB im size <= 127 * 127).
  { apply channel_variance_le; [done|]. intros c Hc.
    by apply (rasterize_pixels_bytes art size numWorkers c). }
  split; [apply sqrt_pos|].
  rewrite <- (sqrt_square 220) by lra.
  apply sqrt_lt_1_alt. lra.
Qed.

End MetricBound.


